(** * The IfStatement evaluator of the partial evaluator

    Shallow embedding of [src/evaluators/IfStatement.js]: the two exported
    functions [evaluate] and [evaluateWithAbstractConditional], written in a
    small state-and-exception monad over the realm, with the collaborators
    of the file (environment, sandbox, join engine, path conditions) taken
    as an interface record. *)

From stdpp Require Import base option list gmap.

(** ** Values *)

(** [ConcreteValue] and [AbstractValue] are the two subclasses of [Value].
    [Empty] is the empty-completion marker, [Undefined] is
    [realm.intrinsics.undefined]; [Cond c x y] is the abstract value built by a conditional merge on the
    abstract condition [c]: [c ? x : y]. *)
Inductive Value : Type :=
  | Empty
  | Undefined
  | Bool (b : bool)
  | Num (n : Z)
  | Abs (a : nat)
  | Cond (c : Value) (x y : Value).

Definition isConcreteValue (v : Value) : bool :=
  match v with
  | Abs _ | Cond _ _ _ => false
  | _ => true
  end.

Definition isAbstractValue (v : Value) : bool := negb (isConcreteValue v).

(** [To.ToBoolean] on concrete values. *)
Definition ToBoolean (v : Value) : bool :=
  match v with
  | Bool b => b
  | Num n => negb (Z.eqb n 0)
  | _ => false
  end.

#[global] Instance Value_eq_dec : EqDecision Value.
Proof. solve_decision. Defined.

(** ** Completions *)

Inductive CompletionKind := Return | Break | Continue | Throw.

#[global] Instance CompletionKind_eq_dec : EqDecision CompletionKind.
Proof. solve_decision. Defined.

Record AbruptCompletion := mkAbrupt {
  kind : CompletionKind;
  value : Value;
  target : option nat
}.

#[global] Instance AbruptCompletion_eq_dec : EqDecision AbruptCompletion.
Proof. solve_decision. Defined.

(** Residual instructions: a sequence of emitted entries, where a
    conditional entry carries the instructions of its two arms. *)
Inductive Generator : Type :=
  | Done
  | Emit (n : nat) (v : Value) (rest : Generator)
  | Branch (c : Value) (onTrue onFalse : Generator) (rest : Generator).

#[global] Instance Generator_eq_dec : EqDecision Generator.
Proof. solve_decision. Defined.

(** A [PossiblyNormalCompletion] reports [normalValue]; the branch that
    completed abruptly is kept in [pendingAbrupt]; [guard] and [guardTruth]
    say under which truth value of which condition the normal value is the
    outcome.  The effects of the abrupt branch are tracked inside the
    completion (comment at lines 150-151 of the source): its
    instructions, its binding and property deltas and its created
    objects. *)
Record PossiblyNormalCompletion := mkPossiblyNormal {
  normalValue : Value;
  pendingAbrupt : AbruptCompletion;
  guard : Value;
  guardTruth : bool;
  pendingGenerator : Generator;
  pendingBindings : gmap nat Value;
  pendingProperties : gmap (nat * nat) Value;
  pendingObjects : gset nat
}.

#[global] Instance PossiblyNormalCompletion_eq_dec :
  EqDecision PossiblyNormalCompletion.
Proof. solve_decision. Defined.

(** What [env.evaluate] and [env.evaluateCompletion] hand back: a value
    (a normal completion is its value), a completion record, or a
    [Reference]. *)
Inductive Completion : Type :=
  | IsValue (v : Value)
  | IsAbrupt (a : AbruptCompletion)
  | IsPossiblyNormal (p : PossiblyNormalCompletion)
  | IsReference (r : nat).

#[global] Instance Completion_eq_dec : EqDecision Completion.
Proof. solve_decision. Defined.

(** ** Effects and the realm *)

Record Effects := mkEffects {
  completion : Completion;
  generator : Generator;
  bindings : gmap nat Value;
  properties : gmap (nat * nat) Value;
  createdObjects : gset nat
}.

Record Realm := mkRealm {
  pathConditions : list (Value * bool);
  realBindings : gmap nat Value;
  realProperties : gmap (nat * nat) Value;
  realGenerator : Generator;
  realObjects : gset nat;
  savedCompletion : option PossiblyNormalCompletion
}.

Definition setPath (p : list (Value * bool)) (r : Realm) : Realm :=
  mkRealm p (realBindings r) (realProperties r) (realGenerator r)
          (realObjects r) (savedCompletion r).

(** ** The AST node *)

Definition BabelNode := nat.

Record BabelNodeIfStatement := mkIf {
  test : BabelNode;
  consequent : BabelNode;
  alternate : option BabelNode
}.

(** ** Exceptions, results and the evaluation monad *)

(** The [invariant] calls of the file, by what they assert. *)
Inductive InvariantSite := NotAReference | IsAValue | IsAnAbstractValue.

(** What a JavaScript [throw] can carry here: an abrupt completion, the
    [InfeasiblePathError], a failed [invariant], or any other error. *)
Inductive Exn : Type :=
  | ThrowCompletion (a : AbruptCompletion)
  | InfeasiblePathError
  | InvariantViolation (site : InvariantSite)
  | FatalError (code : nat).

Inductive Res (A : Type) : Type :=
  | Ret (a : A)
  | Raise (e : Exn).
Arguments Ret {A} a.
Arguments Raise {A} e.

(** Calls made by the evaluator to its collaborators, in order. *)
Inductive Event : Type :=
  | EvEvaluate (n : BabelNode)
  | EvEvaluateCompletion (n : BabelNode)
  | EvGetConditionValue
  | EvMightNotBeTrue
  | EvMightNotBeFalse
  | EvPush (c : Value) (truth : bool)
  | EvPop
  | EvEvaluateNodeForEffects (n : BabelNode)
  | EvConstructEmptyEffects
  | EvJoinEffects (e1 e2 : Effects)
  | EvComposeWithSavedCompletion (p : PossiblyNormalCompletion)
  | EvApplyEffects (e : Effects).

(** An entry of the record of calls: the call, and whether it returned
    or threw. *)
Inductive Entry : Type :=
  | Returned (ev : Event)
  | Threw (ev : Event).

Definition entry {A} (r : Res A) (ev : Event) : Entry :=
  match r with Ret _ => Returned ev | Raise _ => Threw ev end.

Record St := mkSt { realm : Realm; trace : list Entry }.

Definition M (A : Type) : Type := St -> Res A * St.

Definition ret {A} (a : A) : M A := fun s => (Ret a, s).
Definition raise {A} (e : Exn) : M A := fun s => (Raise e, s).
Definition bind {A B} (m : M A) (k : A -> M B) : M B :=
  fun s => match m s with
           | (Ret a, s') => k a s'
           | (Raise e, s') => (Raise e, s')
           end.
(** The shape of both [try] blocks of the source:
<<
      try { x = m; } catch (e) {
        if (e instanceof InfeasiblePathError) { return fallback; }
        throw e;
      }
      k(x)
>>
    The handler's [return] leaves the enclosing function, so [k] runs only
    when [m] returned, and nothing thrown by [fallback] or [k] is caught. *)
Definition tryInfeasible {A B} (m : M A) (fallback : M B) (k : A -> M B) : M B :=
  fun s => match m s with
           | (Ret a, s') => k a s'
           | (Raise InfeasiblePathError, s') => fallback s'
           | (Raise e, s') => (Raise e, s')
           end.

Notation "'let*' x ':=' m 'in' k" := (bind m (fun x => k))
  (at level 10, x name, m at level 100, k at level 200).
Notation "'run' m 'then' k" := (bind m (fun _ => k))
  (at level 10, m at level 100, k at level 200).

Definition invariant (b : bool) (site : InvariantSite) : M unit :=
  if b then ret tt else raise (InvariantViolation site).

(** A call to a collaborator: the collaborator runs on the realm and may
    change it, return or throw; the call is recorded with its exit. *)
Definition call {A} (ev : Event) (f : Realm -> Res A * Realm) : M A :=
  fun s => let '(r, rl) := f (realm s) in
           (r, mkSt rl (trace s ++ [entry r ev])).

(** ** Collaborators *)

(** The functions the file imports.  Each one runs on the realm, may
    change it, and returns or throws. *)
Record Collaborators := mkCollaborators {
  env_evaluate : BabelNode -> bool -> Realm -> Res Completion * Realm;
  env_evaluateCompletion :
    BabelNode -> bool -> Realm -> Res Completion * Realm;
  GetConditionValue : Completion -> Realm -> Res Value * Realm;
  mightNotBeTrue : Value -> Realm -> Res bool * Realm;
  mightNotBeFalse : Value -> Realm -> Res bool * Realm;
  evaluateNodeForEffects :
    BabelNode -> bool -> Realm -> Res Effects * Realm;
  construct_empty_effects : Realm -> Effects;
  joinEffects : Value -> Effects -> Effects -> Realm -> Res Effects * Realm;
  composeWithSavedCompletion :
    PossiblyNormalCompletion -> Realm -> Res Completion * Realm;
  applyEffects : Effects -> Realm -> Res unit * Realm
}.

(** Modelled from the spec: [UpdateEmpty] of [methods/index.js], which is
    not part of the sources at hand.  A completion whose value is the
    empty marker gets the given value, with its kind and target kept; any
    other completion is returned as it is. *)
Definition UpdateEmpty (c : Completion) (v : Value) : Completion :=
  match c with
  | IsValue Empty => IsValue v
  | IsAbrupt (mkAbrupt k Empty t) => IsAbrupt (mkAbrupt k v t)
  | IsPossiblyNormal (mkPossiblyNormal Empty a g b pg pb pp po) =>
      IsPossiblyNormal (mkPossiblyNormal v a g b pg pb pp po)
  | _ => c
  end.

(** Pushing and popping one entry of [realm.pathConditions]. *)
Definition pushPathCondition (c : Value) (truth : bool) (r : Realm) : Realm :=
  setPath ((c, truth) :: pathConditions r) r.

Definition popPathCondition (r : Realm) : Realm :=
  setPath (tail (pathConditions r)) r.

(** Modelled from the spec: [Path.withCondition] and
    [Path.withInverseCondition] of [singletons.js], which are not part of
    the sources at hand.  The assumption is pushed before the thunk runs
    and popped before control goes back to the caller, whether the thunk
    returned or threw. *)
Definition withAssumption {A} (c : Value) (truth : bool) (thunk : M A) : M A :=
  fun s =>
    let s1 := mkSt (pushPathCondition c truth (realm s))
                   (trace s ++ [Returned (EvPush c truth)]) in
    let '(r, s2) := thunk s1 in
    (r, mkSt (popPathCondition (realm s2)) (trace s2 ++ [Returned EvPop])).

Definition withCondition {A} (c : Value) (thunk : M A) : M A :=
  withAssumption c true thunk.

Definition withInverseCondition {A} (c : Value) (thunk : M A) : M A :=
  withAssumption c false thunk.

Definition isReference (c : Completion) : bool :=
  match c with IsReference _ => true | _ => false end.

Section Evaluator.

Context (C : Collaborators).

(** The end of every path (lines 47-51, 59-63, 70-74, 106-110, 125-129
    and 155-157 of the source):
<<
    if (stmtCompletion instanceof AbruptCompletion) throw stmtCompletion;
    invariant(stmtCompletion instanceof Value);
    return stmtCompletion;
>> *)
Definition throwOrReturn (c : Completion) : M Value :=
  match c with
  | IsAbrupt a => raise (ThrowCompletion a)
  | IsValue v => ret v
  | _ => raise (InvariantViolation IsAValue)
  end.

(** The block that follows every direct evaluation of a branch
    (lines 45-51, 57-63, 68-74, 104-110 and 123-129 of the source, the
    same text five times):
<<
    invariant(!(stmtCompletion instanceof Reference));
    stmtCompletion = UpdateEmpty(realm, stmtCompletion, realm.intrinsics.undefined);
>>
    followed by the end of the path. *)
Definition completeStatement (stmtCompletion : Completion) : M Value :=
  run invariant (negb (isReference stmtCompletion)) NotAReference then
  let stmtCompletion := UpdateEmpty stmtCompletion Undefined in
  throwOrReturn stmtCompletion.

(** [stmtCompletion] of an absent branch: [realm.intrinsics.undefined]. *)
Definition evaluateCompletionOrUndefined
    (alternate : option BabelNode) (strictCode : bool) : M Completion :=
  match alternate with
  | Some alt =>
      call (EvEvaluateCompletion alt) (env_evaluateCompletion C alt strictCode)
  | None => ret (IsValue Undefined)
  end.

Definition evaluateOrUndefined
    (alternate : option BabelNode) (strictCode : bool) : M Completion :=
  match alternate with
  | Some alt => call (EvEvaluate alt) (env_evaluate C alt strictCode)
  | None => ret (IsValue Undefined)
  end.

Definition sandboxAlternate
    (alternate : option BabelNode) (strictCode : bool) : M Effects :=
  match alternate with
  | Some alt =>
      call (EvEvaluateNodeForEffects alt)
           (evaluateNodeForEffects C alt strictCode)
  | None =>
      call EvConstructEmptyEffects
           (fun r => (Ret (construct_empty_effects C r), r))
  end.

(** Lines 134-157: join, compose, commit, then throw or return. *)
Definition joinAndCommit (condValue : Value) (e1 e2 : Effects) : M Value :=
  let* joinedEffects :=
    call (EvJoinEffects e1 e2) (joinEffects C condValue e1 e2) in
  let* completion :=
    match completion joinedEffects with
    | IsPossiblyNormal p =>
        call (EvComposeWithSavedCompletion p)
             (composeWithSavedCompletion C p)
    | c => ret c
    end in
  run call (EvApplyEffects joinedEffects) (applyEffects C joinedEffects) then
  throwOrReturn completion.

Definition evaluateWithAbstractConditional
    (condValue : Value) (consequent : BabelNode)
    (alternate : option BabelNode) (strictCode : bool) : M Value :=
  tryInfeasible
    (withCondition condValue
       (call (EvEvaluateNodeForEffects consequent)
             (evaluateNodeForEffects C consequent strictCode)))
    (let* stmtCompletion :=
       evaluateCompletionOrUndefined alternate strictCode in
     completeStatement stmtCompletion)
    (fun e1 =>
  tryInfeasible
    (withInverseCondition condValue (sandboxAlternate alternate strictCode))
    (let* stmtCompletion :=
       call (EvEvaluate consequent) (env_evaluate C consequent strictCode) in
     completeStatement stmtCompletion)
    (fun e2 => joinAndCommit condValue e1 e2)).

Definition evaluate (ast : BabelNodeIfStatement) (strictCode : bool)
  : M Value :=
  let* exprRef :=
    call (EvEvaluate (test ast)) (env_evaluate C (test ast) strictCode) in
  let* exprValue :=
    call EvGetConditionValue (GetConditionValue C exprRef) in
  if isConcreteValue exprValue then
    let* stmtCompletion :=
      if ToBoolean exprValue then
        call (EvEvaluateCompletion (consequent ast))
             (env_evaluateCompletion C (consequent ast) strictCode)
      else evaluateCompletionOrUndefined (alternate ast) strictCode in
    completeStatement stmtCompletion
  else
    run invariant (isAbstractValue exprValue) IsAnAbstractValue then
    let* mnbt := call EvMightNotBeTrue (mightNotBeTrue C exprValue) in
    if negb mnbt then
      let* stmtCompletion :=
        call (EvEvaluate (consequent ast))
             (env_evaluate C (consequent ast) strictCode) in
      completeStatement stmtCompletion
    else
      let* mnbf := call EvMightNotBeFalse (mightNotBeFalse C exprValue) in
      if negb mnbf then
        let* stmtCompletion :=
          evaluateOrUndefined (alternate ast) strictCode in
        completeStatement stmtCompletion
      else
        run invariant (isAbstractValue exprValue) IsAnAbstractValue then
        evaluateWithAbstractConditional
          exprValue (consequent ast) (alternate ast) strictCode.

(** Running the evaluator from a realm, with an empty record of calls. *)
Definition runEvaluate (ast : BabelNodeIfStatement) (strictCode : bool)
    (r : Realm) : Res Value * St :=
  evaluate ast strictCode (mkSt r []).

End Evaluator.

(** ** The join of two effects *)

Module Join.

(** Modelled from the spec: what "specializing to condition = true" (or
    false) means for the join law, which the spec names and does not
    define.  Every conditional merge on [c] is resolved to the side that
    [b] selects. *)
Fixpoint specializeValue (c : Value) (b : bool) (v : Value) : Value :=
  match v with
  | Cond g x y =>
      if decide (g = c)
      then (if b then specializeValue c b x else specializeValue c b y)
      else Cond g (specializeValue c b x) (specializeValue c b y)
  | _ => v
  end.

Definition specializeAbrupt (c : Value) (b : bool) (a : AbruptCompletion)
  : AbruptCompletion :=
  mkAbrupt (kind a) (specializeValue c b (value a)) (target a).

Fixpoint appendGenerator (g h : Generator) : Generator :=
  match g with
  | Done => h
  | Emit n v rest => Emit n v (appendGenerator rest h)
  | Branch c t f rest => Branch c t f (appendGenerator rest h)
  end.

Fixpoint specializeGenerator (c : Value) (b : bool) (g : Generator)
  : Generator :=
  match g with
  | Done => Done
  | Emit n v rest =>
      Emit n (specializeValue c b v) (specializeGenerator c b rest)
  | Branch g' t f rest =>
      if decide (g' = c)
      then appendGenerator
             (if b then specializeGenerator c b t
              else specializeGenerator c b f)
             (specializeGenerator c b rest)
      else Branch g' (specializeGenerator c b t)
                  (specializeGenerator c b f)
                  (specializeGenerator c b rest)
  end.

Definition specializeCompletion (c : Value) (b : bool) (k : Completion)
  : Completion :=
  match k with
  | IsValue v => IsValue (specializeValue c b v)
  | IsAbrupt a => IsAbrupt (specializeAbrupt c b a)
  | IsPossiblyNormal p =>
      if decide (guard p = c)
      then (if decide (guardTruth p = b)
            then IsValue (specializeValue c b (normalValue p))
            else IsAbrupt (specializeAbrupt c b (pendingAbrupt p)))
      else IsPossiblyNormal
             (mkPossiblyNormal (specializeValue c b (normalValue p))
                               (specializeAbrupt c b (pendingAbrupt p))
                               (guard p) (guardTruth p)
                               (specializeGenerator c b (pendingGenerator p))
                               (specializeValue c b <$> pendingBindings p)
                               (specializeValue c b <$> pendingProperties p)
                               (pendingObjects p))
  | IsReference r => IsReference r
  end.

Section Deltas.
Context {K : Type} `{Countable K}.

(** A slot that was never written reads as the empty marker. *)
Definition readSlot (store : gmap K Value) (k : K) : Value :=
  default Empty (store !! k).

(** Committing a delta: its entries replace those of the store. *)
Definition applyDelta (delta store : gmap K Value) : gmap K Value :=
  delta ∪ store.

(** Modelled from the spec: the delta part of [Join.joinEffects] of
    [singletons.js], which is not part of the sources at hand.  The
    keys are those touched by either side; a key touched by one side
    gets "if condition then newValue else originalValue" or the
    symmetric form, a key touched by both gets
    "if condition then valueTrue else valueFalse". *)
Definition joinDelta (c : Value) (store m1 m2 : gmap K Value)
  : gmap K Value :=
  map_imap
    (fun k (sides : option Value * option Value) =>
       Some (Cond c (default (readSlot store k) sides.1)
                    (default (readSlot store k) sides.2)))
    (merge (fun o1 o2 =>
              match o1, o2 with
              | None, None => None
              | _, _ => Some (o1, o2)
              end) m1 m2).

(** What a reader of the store sees at [k] once the condition is known
    to be [b] and [delta] has been committed. *)
Definition observeSlot (c : Value) (b : bool)
    (delta store : gmap K Value) (k : K) : Value :=
  specializeValue c b (readSlot (applyDelta delta store) k).
End Deltas.

(** A side whose effects do not join: it completed abruptly while the
    other side completed normally. *)
Definition pendingSide (e other : Effects) : bool :=
  match completion e, completion other with
  | IsAbrupt _, IsValue _ => true
  | _, _ => false
  end.

(** The possibly-normal completion of a normal side with value [v] and an
    abrupt side [e] with completion [a]: the effects of [e] are retained
    in it as the pending branch. *)
Definition retain (v : Value) (e : Effects) (a : AbruptCompletion)
    (c : Value) (truth : bool) : PossiblyNormalCompletion :=
  mkPossiblyNormal v a c truth (generator e) (bindings e) (properties e)
                   (createdObjects e).

(** Modelled from the spec: the completion part of [Join.joinEffects].
    Two normal sides merge their values; a normal and an abrupt side
    give a possibly-normal completion guarded by the condition that
    selects the normal value, which retains the abrupt side's effects as
    the pending branch; two abrupt sides of the same kind and target
    merge their values; for two abrupt sides that differ in kind or
    target, and for sides that are themselves possibly normal, the spec
    gives no single completion. *)
Definition joinCompletions (c : Value) (e1 e2 : Effects)
  : option Completion :=
  match completion e1, completion e2 with
  | IsValue v1, IsValue v2 => Some (IsValue (Cond c v1 v2))
  | IsValue v1, IsAbrupt a2 =>
      Some (IsPossiblyNormal (retain v1 e2 a2 c true))
  | IsAbrupt a1, IsValue v2 =>
      Some (IsPossiblyNormal (retain v2 e1 a1 c false))
  | IsAbrupt a1, IsAbrupt a2 =>
      if decide (kind a1 = kind a2 /\ target a1 = target a2)
      then Some (IsAbrupt (mkAbrupt (kind a1)
                                    (Cond c (value a1) (value a2))
                                    (target a1)))
      else None
  | _, _ => None
  end.

(** What a side brings into the joined effects: its own instructions,
    deltas and created objects, or nothing when it is the pending side
    ("the effects of (non joining) abrupt branches are not included in
    joinedEffects, but are tracked separately inside completion", lines
    150-151 of the source). *)
Definition contribution (e other : Effects) : Effects :=
  if pendingSide e other then mkEffects (completion e) Done ∅ ∅ ∅ else e.

(** Modelled from the spec: [Join.joinEffects] of [singletons.js], which
    is not part of the sources at hand.  One conditional instruction
    holds the instructions that the two sides bring in; their deltas are
    joined key by key; their created objects are united. *)
Definition joinEffects (r : Realm) (c : Value) (e1 e2 : Effects)
  : option Effects :=
  k ← joinCompletions c e1 e2;
  let s1 := contribution e1 e2 in
  let s2 := contribution e2 e1 in
  Some (mkEffects k
          (Branch c (generator s1) (generator s2) Done)
          (joinDelta c (realBindings r) (bindings s1) (bindings s2))
          (joinDelta c (realProperties r) (properties s1) (properties s2))
          (createdObjects s1 ∪ createdObjects s2)).

(** The side of the fork that a truth value of the condition selects. *)
Definition side (b : bool) (e1 e2 : Effects) : Effects :=
  if b then e1 else e2.

(** Two effects behave alike on the realm [r] once the condition [c] is
    known to be [b]: same completion, same instructions, and the same
    reading of every binding and every property after the commit. *)
Definition sameBehaviour (r : Realm) (c : Value) (b : bool)
    (e e' : Effects) : Prop :=
  specializeCompletion c b (completion e)
    = specializeCompletion c b (completion e')
  /\ specializeGenerator c b (generator e)
    = specializeGenerator c b (generator e')
  /\ (forall k : nat,
        observeSlot c b (bindings e) (realBindings r) k
        = observeSlot c b (bindings e') (realBindings r) k)
  /\ (forall k : nat * nat,
        observeSlot c b (properties e) (realProperties r) k
        = observeSlot c b (properties e') (realProperties r) k).

(** The effects of [e] are what the possibly-normal completion [p]
    holds as its pending branch. *)
Definition retainedIn (p : PossiblyNormalCompletion) (e : Effects) : Prop :=
  completion e = IsAbrupt (pendingAbrupt p)
  /\ generator e = pendingGenerator p
  /\ bindings e = pendingBindings p
  /\ properties e = pendingProperties p
  /\ createdObjects e = pendingObjects p.

(** Once the condition [c] is known to be [b], committing [j] emits
    nothing and leaves every binding and every property of the realm [r]
    as it reads before the commit. *)
Definition untouched (r : Realm) (c : Value) (b : bool) (j : Effects)
  : Prop :=
  specializeGenerator c b (generator j) = Done
  /\ (forall k : nat,
        observeSlot c b (bindings j) (realBindings r) k
        = specializeValue c b (readSlot (realBindings r) k))
  /\ (forall k : nat * nat,
        observeSlot c b (properties j) (realProperties r) k
        = specializeValue c b (readSlot (realProperties r) k)).

End Join.

(** ** Outcomes, as plain values *)

(** The last two statements of every path: an abrupt completion is
    thrown, a value is returned, anything else fails the final
    [invariant]. *)
Definition outcomeOf (c : Completion) : Res Value :=
  match c with
  | IsAbrupt a => Raise (ThrowCompletion a)
  | IsValue v => Ret v
  | _ => Raise (InvariantViolation IsAValue)
  end.

(** The outcome of the block after a direct evaluation of a branch. *)
Definition normalizedOutcome (x : Completion) : Res Value :=
  if isReference x then Raise (InvariantViolation NotAReference)
  else outcomeOf (UpdateEmpty x Undefined).

Definition fillEmpty (v : Value) : Value :=
  match v with Empty => Undefined | _ => v end.

Definition eventOf (x : Entry) : Event :=
  match x with Returned ev | Threw ev => ev end.

Definition isApplyEffects (x : Entry) : bool :=
  match eventOf x with EvApplyEffects _ => true | _ => false end.

(** The calls of the commit block (lines 134-157). *)
Definition isCommitPhase (x : Entry) : bool :=
  match eventOf x with
  | EvJoinEffects _ _ | EvComposeWithSavedCompletion _
  | EvApplyEffects _ => true
  | _ => false
  end.

Definition quiet (x : Entry) : Prop := isCommitPhase x = false.

Definition countApplyEffects (t : list Entry) : nat :=
  length (filter (fun x => isApplyEffects x = true) t).

(** A branch evaluated directly by the collaborator [f] on the realm [r],
    followed by the block that completes the statement. *)
Definition directBranch (f : Realm -> Res Completion * Realm) (r : Realm)
  : Res Value * Realm :=
  (match (f r).1 with
   | Ret x => normalizedOutcome x
   | Raise e => Raise e
   end, (f r).2).

(** The alternate's sandboxed run, as one collaborator call: the sandbox
    on the alternate, or the construction of empty effects. *)
Definition alternateSandbox (C : Collaborators) (alternate : option BabelNode)
    (strictCode : bool) : Realm -> Res Effects * Realm :=
  match alternate with
  | Some alt => evaluateNodeForEffects C alt strictCode
  | None => fun r => (Ret (construct_empty_effects C r), r)
  end.

Definition alternateSandboxEvent (alternate : option BabelNode) : Event :=
  match alternate with
  | Some alt => EvEvaluateNodeForEffects alt
  | None => EvConstructEmptyEffects
  end.

(** What a run appends to the record of calls. *)
Definition emits {A} (m : M A) (P : list Entry -> Prop) : Prop :=
  forall s, exists t, trace (m s).2 = trace s ++ t /\ P t.

(** The four shapes of the record of calls of one run: the commit block
    was not reached; the join threw; the join returned and the composition
    threw; the join returned [j], the composition (when there was one)
    returned, and [applyEffects] was called on [j]. *)
Inductive CommitShape (C : Collaborators) : list Entry -> Prop :=
  | NoCommit pre :
      Forall quiet pre -> CommitShape C pre
  | JoinThrew pre e1 e2 :
      Forall quiet pre ->
      CommitShape C (pre ++ [Threw (EvJoinEffects e1 e2)])
  | ComposeThrew pre e1 e2 p :
      Forall quiet pre ->
      CommitShape C (pre ++ [Returned (EvJoinEffects e1 e2);
                             Threw (EvComposeWithSavedCompletion p)])
  | Committed pre c e1 e2 rj j mid x :
      Forall quiet pre ->
      (joinEffects C c e1 e2 rj).1 = Ret j ->
      mid = [] \/ (exists p, mid = [Returned (EvComposeWithSavedCompletion p)]) ->
      eventOf x = EvApplyEffects j ->
      CommitShape C (pre ++ Returned (EvJoinEffects e1 e2) :: mid ++ [x]).

(** The record of calls ends with a call that threw, or with such a call
    and the pop of the assumption it ran under. *)
Definition threwLast (t : list Entry) : Prop :=
  exists pre ev, t = pre ++ [Threw ev] \/ t = pre ++ [Threw ev; Returned EvPop].

(** What a run appends to the record of calls, with its result. *)
Definition tracks {A} (m : M A) (P : list Entry -> Res A -> Prop) : Prop :=
  forall s, exists t, trace (m s).2 = trace s ++ t /\ P t (m s).1.

(** An error of this step is the error of a call that threw. *)
Definition raisedByCall {A} (t : list Entry) (res : Res A) : Prop :=
  forall e, res = Raise e -> threwLast t.

(** How a run of the evaluator can end.  A returned value is not the
    empty marker unless the commit block was reached.  An error is the
    error of a call that threw, or an abrupt completion thrown by the
    evaluator (whose value is not the empty marker unless the commit
    block was reached), or the failed final [invariant]; or, when the
    collaborators may hand back a [Reference], the failed assertion
    about it. *)
Definition settled (noRef : Prop) (t : list Entry) (res : Res Value) : Prop :=
  match res with
  | Ret v => Forall quiet t -> v <> Empty
  | Raise e =>
      threwLast t
      \/ match e with
         | ThrowCompletion a => Forall quiet t -> value a <> Empty
         | InvariantViolation IsAValue => True
         | InvariantViolation NotAReference => ~ noRef
         | _ => False
         end
  end.

(** A collaborator call keeps the path-condition stack as long as it was
    on every exit, which is what the scoped push and pop give each
    nested evaluation. *)
Definition keepsPath {A} (f : Realm -> Res A * Realm) : Prop :=
  forall r, length (pathConditions (f r).2) = length (pathConditions r).

Definition keepsPathM {A} (m : M A) : Prop :=
  forall s, length (pathConditions (realm (m s).2))
            = length (pathConditions (realm s)).

Record Balanced (C : Collaborators) : Prop := mkBalanced {
  bal_evaluate : forall n b, keepsPath (env_evaluate C n b);
  bal_evaluateCompletion :
    forall n b, keepsPath (env_evaluateCompletion C n b);
  bal_GetConditionValue : forall x, keepsPath (GetConditionValue C x);
  bal_mightNotBeTrue : forall v, keepsPath (mightNotBeTrue C v);
  bal_mightNotBeFalse : forall v, keepsPath (mightNotBeFalse C v);
  bal_evaluateNodeForEffects :
    forall n b, keepsPath (evaluateNodeForEffects C n b);
  bal_joinEffects : forall c e1 e2, keepsPath (joinEffects C c e1 e2);
  bal_composeWithSavedCompletion :
    forall p, keepsPath (composeWithSavedCompletion C p);
  bal_applyEffects : forall e, keepsPath (applyEffects C e)
}.

(** The collaborators never hand a [Reference] back for the statements
    of the two branches (for the test, [env.evaluate] may: its result is
    dereferenced by [GetConditionValue]). *)
Definition neverReference (C : Collaborators) (consequent : BabelNode)
    (alternate : option BabelNode) : Prop :=
  forall n, n = consequent \/ alternate = Some n ->
    (forall b r x r', env_evaluate C n b r = (Ret x, r') ->
                      isReference x = false)
    /\ (forall b r x r', env_evaluateCompletion C n b r = (Ret x, r') ->
                         isReference x = false).

(** ** A scripted environment *)

(** Collaborators that answer from a table: what each node evaluates to,
    what each node's sandboxed run captures, and what the two
    feasibility queries answer.  [env.evaluate] throws an abrupt
    completion where [env.evaluateCompletion] returns it.  The join is
    the one of [Join]; the composition saves the possibly-normal
    completion and hands back the value it reports; the commit writes
    the deltas and appends the instructions. *)
Module Scripted.

Record Script := mkScript {
  direct : BabelNode -> Res Completion;
  sandboxed : BabelNode -> Res Effects;
  answerMightNotBeTrue : Res bool;
  answerMightNotBeFalse : Res bool
}.

Definition emptyEffects : Effects := mkEffects (IsValue Empty) Done ∅ ∅ ∅.

Definition commit (e : Effects) (r : Realm) : Realm :=
  mkRealm (pathConditions r)
          (Join.applyDelta (bindings e) (realBindings r))
          (Join.applyDelta (properties e) (realProperties r))
          (Join.appendGenerator (realGenerator r) (generator e))
          (realObjects r ∪ createdObjects e)
          (savedCompletion r).

Definition save (p : PossiblyNormalCompletion) (r : Realm) : Realm :=
  mkRealm (pathConditions r) (realBindings r) (realProperties r)
          (realGenerator r) (realObjects r) (Some p).

Definition collaborators (sc : Script) : Collaborators :=
  {| env_evaluate n _ r :=
       (match direct sc n with
        | Ret (IsAbrupt a) => Raise (ThrowCompletion a)
        | x => x
        end, r);
     env_evaluateCompletion n _ r := (direct sc n, r);
     GetConditionValue x r :=
       (match x with
        | IsValue v => Ret v
        | _ => Raise (FatalError 1)
        end, r);
     mightNotBeTrue _ r := (answerMightNotBeTrue sc, r);
     mightNotBeFalse _ r := (answerMightNotBeFalse sc, r);
     evaluateNodeForEffects n _ r := (sandboxed sc n, r);
     construct_empty_effects _ := emptyEffects;
     joinEffects c e1 e2 r :=
       (match Join.joinEffects r c e1 e2 with
        | Some j => Ret j
        | None => Raise (FatalError 2)
        end, r);
     composeWithSavedCompletion p r := (Ret (IsValue (normalValue p)), save p r);
     applyEffects e r := (Ret tt, commit e r) |}.

Definition realm0 : Realm := mkRealm [] ∅ ∅ Done ∅ None.

(** Node 0 is the test, node 1 the consequent, node 2 the alternate. *)
Definition ifElse : BabelNodeIfStatement := mkIf 0 1 (Some 2).
Definition ifOnly : BabelNodeIfStatement := mkIf 0 1 None.

Definition table {A} (x0 x1 x2 : Res A) (n : BabelNode) : Res A :=
  match n with 0 => x0 | 1 => x1 | _ => x2 end.

Definition effectsOf (c : Completion) (slot : nat) (v : Value) : Effects :=
  mkEffects c (Emit slot v Done) {[ slot := v ]} ∅ ∅.

(** What the join gives on [realm0] for two effects whose completions
    join into [k]. *)
Definition joined (c : Value) (e1 e2 : Effects) (k : Completion) : Effects :=
  mkEffects k (Branch c (generator e1) (generator e2) Done)
            (Join.joinDelta c ∅ (bindings e1) (bindings e2))
            (Join.joinDelta c ∅ (properties e1) (properties e2))
            (createdObjects e1 ∪ createdObjects e2).

(** A script for an [if] whose test evaluates to [cond]: [x1] and [x2]
    are what the consequent and the alternate evaluate to, [e1] and [e2]
    what their sandboxed runs give, [t] and [f] the answers of
    [mightNotBeTrue] and [mightNotBeFalse]. *)
Definition script (cond : Value) (x1 x2 : Res Completion)
    (e1 e2 : Res Effects) (t f : Res bool) : Script :=
  mkScript (table (Ret (IsValue cond)) x1 x2)
           (table (Raise (FatalError 9)) e1 e2) t f.

(** [if (true) 5]: a concrete condition, no alternate. *)
Definition scenarioA : Script :=
  script (Bool true) (Ret (IsValue (Num 5))) (Raise (FatalError 8))
         (Raise (FatalError 9)) (Raise (FatalError 9)) (Ret true) (Ret true).

(** An abstract condition that the path conditions prove true. *)
Definition provablyTrue : Script :=
  script (Abs 7) (Ret (IsValue (Num 1))) (Ret (IsValue (Num 2)))
         (Raise (FatalError 9)) (Raise (FatalError 9)) (Ret false) (Ret true).

(** Scenario D of the spec: an abstract condition that the path
    conditions prove false. *)
Definition scenarioD : Script :=
  script (Abs 7) (Ret (IsValue (Num 1))) (Ret (IsValue (Num 2)))
         (Raise (FatalError 9)) (Raise (FatalError 9)) (Ret true) (Ret false).

(** Scenario E of the spec: the sandboxed run of the consequent finds
    the path infeasible. *)
Definition scenarioE : Script :=
  script (Abs 7) (Ret (IsValue (Num 1))) (Ret (IsValue (Num 2)))
         (Raise InfeasiblePathError) (Ret (effectsOf (IsValue (Num 2)) 5 (Num 2)))
         (Ret true) (Ret true).

(** The sandboxed run of the alternate finds the path infeasible. *)
Definition infeasibleAlternate : Script :=
  script (Abs 7) (Ret (IsValue (Num 1))) (Ret (IsValue (Num 2)))
         (Ret (effectsOf (IsValue (Num 1)) 5 (Num 1))) (Raise InfeasiblePathError)
         (Ret true) (Ret true).

(** Scenario B of the spec: the consequent sets binding 5 to [1] and
    returns [1], the alternate sets it to [2] and returns [2]. *)
Definition scenarioB : Script :=
  script (Abs 7) (Ret (IsValue (Num 1))) (Ret (IsValue (Num 2)))
         (Ret (effectsOf (IsValue (Num 1)) 5 (Num 1)))
         (Ret (effectsOf (IsValue (Num 2)) 5 (Num 2)))
         (Ret true) (Ret true).

(** Scenario C of the spec: the consequent throws, the alternate
    returns [7]. *)
Definition scenarioC : Script :=
  script (Abs 7) (Raise (FatalError 8)) (Ret (IsValue (Num 7)))
         (Ret (effectsOf (IsAbrupt (mkAbrupt Throw (Num 0) None)) 5 (Num 1)))
         (Ret (effectsOf (IsValue (Num 7)) 5 (Num 2)))
         (Ret true) (Ret true).

(** The feasibility query itself finds the path infeasible. *)
Definition infeasibleQuery : Script :=
  script (Abs 7) (Ret (IsValue (Num 1))) (Ret (IsValue (Num 2)))
         (Ret (effectsOf (IsValue (Num 1)) 5 (Num 1)))
         (Ret (effectsOf (IsValue (Num 2)) 5 (Num 2)))
         (Raise InfeasiblePathError) (Ret true).

(** The sandboxed run of the consequent fails with another error. *)
Definition faultyConsequent : Script :=
  script (Abs 7) (Ret (IsValue (Num 1))) (Ret (IsValue (Num 2)))
         (Raise (FatalError 3)) (Ret (effectsOf (IsValue (Num 2)) 5 (Num 2)))
         (Ret true) (Ret true).

(** [if (x) {} else break]: the consequent's sandboxed run completes
    with the empty marker, the alternate's with a [break]. *)
Definition emptyFork : Script :=
  script (Abs 7) (Ret (IsValue Empty))
         (Ret (IsAbrupt (mkAbrupt Break Empty None)))
         (Ret (effectsOf (IsValue Empty) 5 (Num 1)))
         (Ret (effectsOf (IsAbrupt (mkAbrupt Break Empty None)) 5 (Num 2)))
         (Ret true) (Ret true).

(** [if (true) {}]: the consequent completes with the empty marker. *)
Definition emptyBlock : Script :=
  script (Bool true) (Ret (IsValue Empty)) (Raise (FatalError 8))
         (Raise (FatalError 9)) (Raise (FatalError 9)) (Ret true) (Ret true).

End Scripted.

(** The scripted collaborators of [sc], except that the test (node 0)
    evaluates to a [Reference], which [GetConditionValue] dereferences
    to [cond]. *)
Definition withReferenceTest (sc : Scripted.Script) (cond : Value)
  : Collaborators :=
  let C := Scripted.collaborators sc in
  {| env_evaluate n b r :=
       match n with
       | 0 => (Ret (IsReference 0), r)
       | _ => env_evaluate C n b r
       end;
     env_evaluateCompletion := env_evaluateCompletion C;
     GetConditionValue x r :=
       match x with
       | IsReference _ => (Ret cond, r)
       | _ => GetConditionValue C x r
       end;
     mightNotBeTrue := mightNotBeTrue C;
     mightNotBeFalse := mightNotBeFalse C;
     evaluateNodeForEffects := evaluateNodeForEffects C;
     construct_empty_effects := construct_empty_effects C;
     joinEffects := joinEffects C;
     composeWithSavedCompletion := composeWithSavedCompletion C;
     applyEffects := applyEffects C |}.

(** ** The protocol of calls *)

(** The calls of the commit block, lines 134-157: the join; then the
    composition when the joined completion is possibly normal; then
    [applyEffects].  A call that throws ends the block. *)
Inductive CommitTrace : list Entry -> Prop :=
  | CommitJoinThrew e1 e2 :
      CommitTrace [Threw (EvJoinEffects e1 e2)]
  | CommitComposeThrew e1 e2 p :
      CommitTrace [Returned (EvJoinEffects e1 e2);
                   Threw (EvComposeWithSavedCompletion p)]
  | CommitApplied e1 e2 j x :
      eventOf x = EvApplyEffects j ->
      CommitTrace [Returned (EvJoinEffects e1 e2); x]
  | CommitComposedApplied e1 e2 p j x :
      eventOf x = EvApplyEffects j ->
      CommitTrace [Returned (EvJoinEffects e1 e2);
                   Returned (EvComposeWithSavedCompletion p); x].

(** The calls of [evaluateWithAbstractConditional], lines 89-157. *)
Inductive ForkTrace (c : Value) (consequent : BabelNode)
    (alternate : option BabelNode) : list Entry -> Prop :=
  | ForkConsequentThrew :
      ForkTrace c consequent alternate
        [Returned (EvPush c true);
         Threw (EvEvaluateNodeForEffects consequent); Returned EvPop]
  | ForkConsequentInfeasible alt x :
      alternate = Some alt ->
      eventOf x = EvEvaluateCompletion alt ->
      ForkTrace c consequent alternate
        [Returned (EvPush c true);
         Threw (EvEvaluateNodeForEffects consequent); Returned EvPop; x]
  | ForkAlternateThrew :
      ForkTrace c consequent alternate
        [Returned (EvPush c true);
         Returned (EvEvaluateNodeForEffects consequent); Returned EvPop;
         Returned (EvPush c false);
         Threw (alternateSandboxEvent alternate); Returned EvPop]
  | ForkAlternateInfeasible x :
      eventOf x = EvEvaluate consequent ->
      ForkTrace c consequent alternate
        [Returned (EvPush c true);
         Returned (EvEvaluateNodeForEffects consequent); Returned EvPop;
         Returned (EvPush c false);
         Threw (alternateSandboxEvent alternate); Returned EvPop; x]
  | ForkCommit t :
      CommitTrace t ->
      ForkTrace c consequent alternate
        ([Returned (EvPush c true);
          Returned (EvEvaluateNodeForEffects consequent); Returned EvPop;
          Returned (EvPush c false);
          Returned (alternateSandboxEvent alternate); Returned EvPop] ++ t).

(** The calls of [evaluate], lines 24-79. *)
Inductive RunTrace (ast : BabelNodeIfStatement) : list Entry -> Prop :=
  | RunTestThrew :
      RunTrace ast [Threw (EvEvaluate (test ast))]
  | RunConditionThrew :
      RunTrace ast [Returned (EvEvaluate (test ast));
                    Threw EvGetConditionValue]
  | RunConcrete n x :
      n = consequent ast \/ alternate ast = Some n ->
      eventOf x = EvEvaluateCompletion n ->
      RunTrace ast [Returned (EvEvaluate (test ast));
                    Returned EvGetConditionValue; x]
  | RunConcreteNoAlternate :
      alternate ast = None ->
      RunTrace ast [Returned (EvEvaluate (test ast));
                    Returned EvGetConditionValue]
  | RunFirstQueryThrew :
      RunTrace ast [Returned (EvEvaluate (test ast));
                    Returned EvGetConditionValue; Threw EvMightNotBeTrue]
  | RunProvablyTrue x :
      eventOf x = EvEvaluate (consequent ast) ->
      RunTrace ast [Returned (EvEvaluate (test ast));
                    Returned EvGetConditionValue;
                    Returned EvMightNotBeTrue; x]
  | RunSecondQueryThrew :
      RunTrace ast [Returned (EvEvaluate (test ast));
                    Returned EvGetConditionValue;
                    Returned EvMightNotBeTrue; Threw EvMightNotBeFalse]
  | RunProvablyFalse alt x :
      alternate ast = Some alt ->
      eventOf x = EvEvaluate alt ->
      RunTrace ast [Returned (EvEvaluate (test ast));
                    Returned EvGetConditionValue;
                    Returned EvMightNotBeTrue; Returned EvMightNotBeFalse; x]
  | RunProvablyFalseNoAlternate :
      alternate ast = None ->
      RunTrace ast [Returned (EvEvaluate (test ast));
                    Returned EvGetConditionValue;
                    Returned EvMightNotBeTrue; Returned EvMightNotBeFalse]
  | RunFork c t :
      isConcreteValue c = false ->
      ForkTrace c (consequent ast) (alternate ast) t ->
      RunTrace ast ([Returned (EvEvaluate (test ast));
                     Returned EvGetConditionValue;
                     Returned EvMightNotBeTrue; Returned EvMightNotBeFalse]
                    ++ t).

(** Calls of [env.evaluate] and [env.evaluateCompletion]: the test and
    the branches evaluated directly on the realm. *)
Definition isDirectEvaluation (x : Entry) : bool :=
  match eventOf x with
  | EvEvaluate _ | EvEvaluateCompletion _ => true
  | _ => false
  end.

Definition countDirectEvaluations (t : list Entry) : nat :=
  length (filter (fun x => isDirectEvaluation x = true) t).

Definition isQuery (x : Entry) : bool :=
  match eventOf x with
  | EvMightNotBeTrue | EvMightNotBeFalse => true
  | _ => false
  end.

(** ** Relations between the realm before and after *)

(** A collaborator call, and a computation, that take every realm to a
    realm related to it by [R]. *)
Definition respects {A} (R : Realm -> Realm -> Prop)
    (f : Realm -> Res A * Realm) : Prop :=
  forall r, R r (f r).2.

Definition respectsM {A} (R : Realm -> Realm -> Prop) (m : M A) : Prop :=
  forall s, R (realm s) (realm (m s).2).

Record Respectful (R : Realm -> Realm -> Prop) (C : Collaborators) : Prop :=
  mkRespectful {
    resp_evaluate : forall n b, respects R (env_evaluate C n b);
    resp_evaluateCompletion :
      forall n b, respects R (env_evaluateCompletion C n b);
    resp_GetConditionValue : forall x, respects R (GetConditionValue C x);
    resp_mightNotBeTrue : forall v, respects R (mightNotBeTrue C v);
    resp_mightNotBeFalse : forall v, respects R (mightNotBeFalse C v);
    resp_evaluateNodeForEffects :
      forall n b, respects R (evaluateNodeForEffects C n b);
    resp_joinEffects : forall c e1 e2, respects R (joinEffects C c e1 e2);
    resp_composeWithSavedCompletion :
      forall p, respects R (composeWithSavedCompletion C p);
    resp_applyEffects : forall e, respects R (applyEffects C e)
  }.

(** The path-condition stack is the same stack. *)
Definition samePath (r r' : Realm) : Prop :=
  pathConditions r' = pathConditions r.

(** A property of the realm that holds before holds after. *)
Definition keeps (I : Realm -> Prop) (r r' : Realm) : Prop := I r -> I r'.


(** * Properties *)

(** ** Running the building blocks *)

Section RunEquations.

Context (C : Collaborators).

Lemma throwOrReturn_run c s : throwOrReturn c s = (outcomeOf c, s).
Proof. by destruct c. Qed.

Lemma completeStatement_run x s :
  completeStatement x s = (normalizedOutcome x, s).
Proof.
  unfold completeStatement, normalizedOutcome, bind, invariant.
  destruct (isReference x); simpl; [done|].
  apply throwOrReturn_run.
Qed.

Lemma call_run {A} ev (f : Realm -> Res A * Realm) s :
  call ev f s = ((f (realm s)).1,
                 mkSt (f (realm s)).2 (trace s ++ [entry (f (realm s)).1 ev])).
Proof. unfold call. by destruct (f (realm s)). Qed.

(** A direct evaluation followed by the completing block. *)
Lemma direct_run ev (f : Realm -> Res Completion * Realm) s :
  (let* stmtCompletion := call ev f in completeStatement stmtCompletion) s
  = ((directBranch f (realm s)).1,
     mkSt (directBranch f (realm s)).2
          (trace s ++ [entry (f (realm s)).1 ev])).
Proof.
  unfold bind, directBranch. rewrite call_run. simpl.
  destruct (f (realm s)) as [[x|e] r']; simpl; [|done].
  apply completeStatement_run.
Qed.

Lemma normalizedOutcome_value v :
  normalizedOutcome (IsValue v) = Ret (fillEmpty v).
Proof. by destruct v. Qed.

Lemma normalizedOutcome_abrupt a :
  normalizedOutcome (IsAbrupt a)
  = Raise (ThrowCompletion (mkAbrupt (kind a) (fillEmpty (value a)) (target a))).
Proof. destruct a as [k [] t]; reflexivity. Qed.

Lemma normalizedOutcome_possiblyNormal p :
  normalizedOutcome (IsPossiblyNormal p) = Raise (InvariantViolation IsAValue).
Proof. destruct p as [[] a g b]; reflexivity. Qed.

Lemma normalizedOutcome_reference n :
  normalizedOutcome (IsReference n) = Raise (InvariantViolation NotAReference).
Proof. reflexivity. Qed.

End RunEquations.

(** ** The concrete condition *)

(** C1, as amended.  When the condition evaluates to a concrete value, the
    evaluator runs [env.evaluateCompletion] on exactly one branch, on the
    realm left by the evaluation of the condition: the consequent when the
    value is truthy, else the alternate; with no alternate it returns
    [undefined].  The completion of that branch keeps its kind and its
    target, and its value except that the empty marker becomes
    [undefined]; it is thrown when abrupt and its value is returned
    otherwise.  The calls made are the evaluation of the test, the
    condition value and that one branch: no sandbox, no join. *)
Theorem concrete_condition_runs_selected_branch
    (C : Collaborators) (ast : BabelNodeIfStatement) (strictCode : bool)
    (r r1 r2 : Realm) (exprRef : Completion) (exprValue : Value)
    (Htest : env_evaluate C (test ast) strictCode r = (Ret exprRef, r1))
    (Hcond : GetConditionValue C exprRef r1 = (Ret exprValue, r2))
    (Hconcrete : isConcreteValue exprValue = true) :
  runEvaluate C ast strictCode r =
    match (if ToBoolean exprValue then Some (consequent ast)
           else alternate ast) with
    | Some n =>
        let f := env_evaluateCompletion C n strictCode in
        ((directBranch f r2).1,
         mkSt (directBranch f r2).2
              [Returned (EvEvaluate (test ast)); Returned EvGetConditionValue;
               entry (f r2).1 (EvEvaluateCompletion n)])
    | None =>
        (Ret Undefined,
         mkSt r2 [Returned (EvEvaluate (test ast));
                  Returned EvGetConditionValue])
    end
  /\ (forall v, normalizedOutcome (IsValue v) = Ret (fillEmpty v))
  /\ (forall a, normalizedOutcome (IsAbrupt a)
                = Raise (ThrowCompletion
                           (mkAbrupt (kind a) (fillEmpty (value a)) (target a)))).
Proof.
  split; [|split; [apply normalizedOutcome_value|apply normalizedOutcome_abrupt]].
  unfold runEvaluate, evaluate.
  unfold bind at 1. rewrite call_run. simpl. rewrite Htest. simpl.
  unfold bind at 1. rewrite call_run. simpl. rewrite Hcond. simpl.
  rewrite Hconcrete.
  destruct (ToBoolean exprValue).
  - by rewrite direct_run.
  - unfold evaluateCompletionOrUndefined.
    destruct (alternate ast) as [alt|].
    + by rewrite direct_run.
    + unfold bind, ret. by rewrite completeStatement_run.
Qed.

(** Scenario A of the spec: the condition is the concrete [true], the
    consequent returns [5], there is no alternate; the result is [5]. *)
Lemma concrete_condition_runs_selected_branch_witness :
  (runEvaluate (Scripted.collaborators Scripted.scenarioA)
               Scripted.ifOnly false Scripted.realm0).1 = Ret (Num 5).
Proof.
  destruct (concrete_condition_runs_selected_branch
              (Scripted.collaborators Scripted.scenarioA)
              Scripted.ifOnly false Scripted.realm0 Scripted.realm0
              Scripted.realm0 (IsValue (Bool true)) (Bool true)
              eq_refl eq_refl eq_refl) as [Hrun _].
  rewrite Hrun. reflexivity.
Defined.

(** C1 as stated does not hold: for [if (true) {}] the consequent,
    evaluated directly, completes with the empty marker as its value,
    and the conditional returns [undefined], a different value. *)
Lemma concrete_condition_value_differs :
  let C := Scripted.collaborators Scripted.emptyBlock in
  ToBoolean (Bool true) = true
  /\ (env_evaluateCompletion C (consequent Scripted.ifOnly) false
                             Scripted.realm0).1 = Ret (IsValue Empty)
  /\ (runEvaluate C Scripted.ifOnly false Scripted.realm0).1 = Ret Undefined
  /\ (runEvaluate C Scripted.ifOnly false Scripted.realm0).1 <> Ret Empty.
Proof. repeat split; try reflexivity. vm_compute. discriminate. Qed.

(** ** The abstract condition that the path conditions resolve *)

(** C8.  When the condition evaluates to an abstract value and
    [mightNotBeTrue()] answers false, the evaluator runs [env.evaluate] on
    the consequent, directly on the realm, and completes the statement as
    in the concrete case; when [mightNotBeTrue()] answers true and
    [mightNotBeFalse()] answers false it does so with the alternate, or
    returns [undefined] when there is none.  The calls made are the test,
    the condition value, the queries and that one branch: no sandbox, no
    join, no assumption pushed. *)
Theorem resolved_condition_runs_selected_branch
    (C : Collaborators) (ast : BabelNodeIfStatement) (strictCode : bool)
    (r r1 r2 : Realm) (exprRef : Completion) (exprValue : Value)
    (Htest : env_evaluate C (test ast) strictCode r = (Ret exprRef, r1))
    (Hcond : GetConditionValue C exprRef r1 = (Ret exprValue, r2))
    (Habstract : isConcreteValue exprValue = false) :
  (forall r3,
     mightNotBeTrue C exprValue r2 = (Ret false, r3) ->
     let f := env_evaluate C (consequent ast) strictCode in
     runEvaluate C ast strictCode r =
       ((directBranch f r3).1,
        mkSt (directBranch f r3).2
             [Returned (EvEvaluate (test ast)); Returned EvGetConditionValue;
              Returned EvMightNotBeTrue;
              entry (f r3).1 (EvEvaluate (consequent ast))]))
  /\ (forall r3 r4,
       mightNotBeTrue C exprValue r2 = (Ret true, r3) ->
       mightNotBeFalse C exprValue r3 = (Ret false, r4) ->
       runEvaluate C ast strictCode r =
         match alternate ast with
         | Some alt =>
             let f := env_evaluate C alt strictCode in
             ((directBranch f r4).1,
              mkSt (directBranch f r4).2
                   [Returned (EvEvaluate (test ast));
                    Returned EvGetConditionValue;
                    Returned EvMightNotBeTrue; Returned EvMightNotBeFalse;
                    entry (f r4).1 (EvEvaluate alt)])
         | None =>
             (Ret Undefined,
              mkSt r4 [Returned (EvEvaluate (test ast));
                       Returned EvGetConditionValue;
                       Returned EvMightNotBeTrue; Returned EvMightNotBeFalse])
         end).
Proof.
  assert (Habs : isAbstractValue exprValue = true)
    by (unfold isAbstractValue; by rewrite Habstract).
  split.
  - intros r3 Htrue f. unfold runEvaluate, evaluate.
    unfold bind at 1. rewrite call_run. simpl. rewrite Htest. simpl.
    unfold bind at 1. rewrite call_run. simpl. rewrite Hcond. simpl.
    rewrite Habstract, Habs. unfold invariant.
    unfold bind at 1. unfold ret at 1.
    unfold bind at 1. rewrite call_run. simpl. rewrite Htrue. simpl.
    by rewrite direct_run.
  - intros r3 r4 Htrue Hfalse. unfold runEvaluate, evaluate.
    unfold bind at 1. rewrite call_run. simpl. rewrite Htest. simpl.
    unfold bind at 1. rewrite call_run. simpl. rewrite Hcond. simpl.
    rewrite Habstract, Habs. unfold invariant.
    unfold bind at 1. unfold ret at 1.
    unfold bind at 1. rewrite call_run. simpl. rewrite Htrue. simpl.
    unfold bind at 1. rewrite call_run. simpl. rewrite Hfalse. simpl.
    unfold evaluateOrUndefined.
    destruct (alternate ast) as [alt|].
    + by rewrite direct_run.
    + unfold bind, ret. by rewrite completeStatement_run.
Qed.

(** A condition proved true runs the consequent, and scenario D of the
    spec: a condition proved false runs the alternate. *)
Lemma resolved_condition_runs_selected_branch_witness :
  (runEvaluate (Scripted.collaborators Scripted.provablyTrue)
               Scripted.ifElse false Scripted.realm0).1 = Ret (Num 1)
  /\ (runEvaluate (Scripted.collaborators Scripted.scenarioD)
                  Scripted.ifElse false Scripted.realm0).1 = Ret (Num 2).
Proof.
  split.
  - destruct (resolved_condition_runs_selected_branch
                (Scripted.collaborators Scripted.provablyTrue)
                Scripted.ifElse false Scripted.realm0 Scripted.realm0
                Scripted.realm0 (IsValue (Abs 7)) (Abs 7)
                eq_refl eq_refl eq_refl) as [Hrun _].
    rewrite (Hrun Scripted.realm0 eq_refl). reflexivity.
  - destruct (resolved_condition_runs_selected_branch
                (Scripted.collaborators Scripted.scenarioD)
                Scripted.ifElse false Scripted.realm0 Scripted.realm0
                Scripted.realm0 (IsValue (Abs 7)) (Abs 7)
                eq_refl eq_refl eq_refl) as [_ Hrun].
    rewrite (Hrun Scripted.realm0 Scripted.realm0 eq_refl eq_refl).
    reflexivity.
Defined.

(** ** The fork *)

Section Fork.

Context (C : Collaborators).

Lemma withAssumption_call_run {A} c truth ev (f : Realm -> Res A * Realm) s :
  withAssumption c truth (call ev f) s
  = let a := f (pushPathCondition c truth (realm s)) in
    (a.1, mkSt (popPathCondition a.2)
               (trace s ++ [Returned (EvPush c truth); entry a.1 ev;
                            Returned EvPop])).
Proof.
  unfold withAssumption. rewrite call_run. simpl.
  by rewrite <- !app_assoc.
Qed.

Lemma sandboxAlternate_call alternate strictCode :
  sandboxAlternate C alternate strictCode
  = call (alternateSandboxEvent alternate)
         (alternateSandbox C alternate strictCode).
Proof. by destruct alternate. Qed.

(** The commit block (lines 134-157), in closed form. *)
Lemma joinAndCommit_run condValue e1 e2 s :
  joinAndCommit C condValue e1 e2 s
  = let j := joinEffects C condValue e1 e2 (realm s) in
    match j.1 with
    | Raise e => (Raise e, mkSt j.2 (trace s ++ [Threw (EvJoinEffects e1 e2)]))
    | Ret joined =>
        let t1 := trace s ++ [Returned (EvJoinEffects e1 e2)] in
        let composed :=
          match completion joined with
          | IsPossiblyNormal p =>
              let k := composeWithSavedCompletion C p j.2 in
              (k.1, mkSt k.2
                         (t1 ++ [entry k.1 (EvComposeWithSavedCompletion p)]))
          | c => (Ret c, mkSt j.2 t1)
          end in
        match composed.1 with
        | Raise e => (Raise e, composed.2)
        | Ret fin =>
            let a := applyEffects C joined (realm composed.2) in
            (match a.1 with Ret _ => outcomeOf fin | Raise e => Raise e end,
             mkSt a.2 (trace composed.2 ++ [entry a.1 (EvApplyEffects joined)]))
        end
    end.
Proof.
  unfold joinAndCommit. unfold bind at 1. rewrite call_run.
  destruct (joinEffects C condValue e1 e2 (realm s)) as [[joined|e] rj];
    simpl; [|done].
  assert (Hfin : forall fin s',
    (run call (EvApplyEffects joined) (applyEffects C joined) then
     throwOrReturn fin) s'
    = let a := applyEffects C joined (realm s') in
      (match a.1 with Ret _ => outcomeOf fin | Raise e => Raise e end,
       mkSt a.2 (trace s' ++ [entry a.1 (EvApplyEffects joined)]))).
  { intros fin s'. unfold bind. rewrite call_run.
    destruct (applyEffects C joined (realm s')) as [[[]|e] ra]; simpl; [|done].
    apply throwOrReturn_run. }
  destruct (completion joined) as [v|a|p|n];
    try (unfold bind at 1; unfold ret at 1; by rewrite Hfin).
  unfold bind at 1. rewrite call_run. simpl.
  destruct (composeWithSavedCompletion C p rj) as [[fin|e] rc]; simpl; [|done].
  by rewrite Hfin.
Qed.

End Fork.

(** C3.  When the sandboxed run of the consequent throws the
    infeasible-path error, the assumption is popped and the alternate is
    evaluated by [env.evaluateCompletion] directly on the realm (or
    [undefined] is taken when there is none), completed and thrown or
    returned.  When the consequent's run returns and the alternate's run
    throws the error, the assumption is popped and the consequent is
    evaluated by [env.evaluate] directly on the realm.  In both cases the
    calls end there: no join, no commit. *)
Theorem infeasible_branch_abandons_fork
    (C : Collaborators) (condValue : Value) (consequent : BabelNode)
    (alternate : option BabelNode) (strictCode : bool) (s : St) :
  (forall r1,
     evaluateNodeForEffects C consequent strictCode
       (pushPathCondition condValue true (realm s))
       = (Raise InfeasiblePathError, r1) ->
     evaluateWithAbstractConditional C condValue consequent alternate
                                     strictCode s =
       let t1 := trace s ++ [Returned (EvPush condValue true);
                             Threw (EvEvaluateNodeForEffects consequent);
                             Returned EvPop] in
       match alternate with
       | Some alt =>
           let f := env_evaluateCompletion C alt strictCode in
           ((directBranch f (popPathCondition r1)).1,
            mkSt (directBranch f (popPathCondition r1)).2
                 (t1 ++ [entry (f (popPathCondition r1)).1
                               (EvEvaluateCompletion alt)]))
       | None => (Ret Undefined, mkSt (popPathCondition r1) t1)
       end)
  /\ (forall e1 r1 r2,
       evaluateNodeForEffects C consequent strictCode
         (pushPathCondition condValue true (realm s)) = (Ret e1, r1) ->
       alternateSandbox C alternate strictCode
         (pushPathCondition condValue false (popPathCondition r1))
         = (Raise InfeasiblePathError, r2) ->
       evaluateWithAbstractConditional C condValue consequent alternate
                                       strictCode s =
         let f := env_evaluate C consequent strictCode in
         ((directBranch f (popPathCondition r2)).1,
          mkSt (directBranch f (popPathCondition r2)).2
               (trace s ++ [Returned (EvPush condValue true);
                            Returned (EvEvaluateNodeForEffects consequent);
                            Returned EvPop;
                            Returned (EvPush condValue false);
                            Threw (alternateSandboxEvent alternate);
                            Returned EvPop;
                            entry (f (popPathCondition r2)).1
                                  (EvEvaluate consequent)]))).
Proof.
  split.
  - intros r1 H1. unfold evaluateWithAbstractConditional, tryInfeasible,
      withCondition.
    rewrite withAssumption_call_run, H1. simpl.
    unfold evaluateCompletionOrUndefined. destruct alternate as [alt|].
    + by rewrite direct_run.
    + unfold bind, ret. by rewrite completeStatement_run.
  - intros e1 r1 r2 H1 H2. unfold evaluateWithAbstractConditional.
    unfold tryInfeasible at 1. unfold withCondition.
    rewrite withAssumption_call_run, H1. simpl.
    unfold tryInfeasible, withInverseCondition.
    rewrite sandboxAlternate_call, withAssumption_call_run. simpl.
    rewrite H2. simpl. rewrite direct_run. simpl.
    by rewrite <- !app_assoc.
Qed.

(** Scenario E of the spec, and its mirror image: with the consequent
    infeasible the alternate's value is returned, with the alternate
    infeasible the consequent's. *)
Lemma infeasible_branch_abandons_fork_witness :
  (evaluateWithAbstractConditional
     (Scripted.collaborators Scripted.scenarioE) (Abs 7) 1 (Some 2) false
     (mkSt Scripted.realm0 [])).1 = Ret (Num 2)
  /\ (evaluateWithAbstractConditional
        (Scripted.collaborators Scripted.infeasibleAlternate) (Abs 7) 1
        (Some 2) false (mkSt Scripted.realm0 [])).1 = Ret (Num 1).
Proof.
  split.
  - destruct (infeasible_branch_abandons_fork
                (Scripted.collaborators Scripted.scenarioE) (Abs 7) 1 (Some 2)
                false (mkSt Scripted.realm0 [])) as [Hrun _].
    rewrite (Hrun _ eq_refl). reflexivity.
  - destruct (infeasible_branch_abandons_fork
                (Scripted.collaborators Scripted.infeasibleAlternate)
                (Abs 7) 1 (Some 2) false (mkSt Scripted.realm0 []))
      as [_ Hrun].
    rewrite (Hrun _ _ _ eq_refl eq_refl). reflexivity.
Defined.

(** C4.  When both sandboxed runs return (the alternate's being the
    empty effects when there is no alternate) and the join returns, a
    possibly-normal joined completion is first composed with the saved
    completion; then the joined effects are committed by one
    [applyEffects] call, the last call made; then the completion (the
    composed one, or the joined one) is thrown when abrupt and its value
    returned when it is a value. *)
Theorem fork_joins_composes_commits
    (C : Collaborators) (condValue : Value) (consequent : BabelNode)
    (alternate : option BabelNode) (strictCode : bool) (s : St)
    (e1 e2 joined : Effects) (r1 r2 r3 : Realm)
    (Hsandbox1 :
       evaluateNodeForEffects C consequent strictCode
         (pushPathCondition condValue true (realm s)) = (Ret e1, r1))
    (Hsandbox2 :
       alternateSandbox C alternate strictCode
         (pushPathCondition condValue false (popPathCondition r1))
         = (Ret e2, r2))
    (Hjoin :
       joinEffects C condValue e1 e2 (popPathCondition r2)
         = (Ret joined, r3)) :
  let t0 := trace s ++ [Returned (EvPush condValue true);
                        Returned (EvEvaluateNodeForEffects consequent);
                        Returned EvPop;
                        Returned (EvPush condValue false);
                        Returned (alternateSandboxEvent alternate);
                        Returned EvPop;
                        Returned (EvJoinEffects e1 e2)] in
  let result := evaluateWithAbstractConditional C condValue consequent alternate
                                             strictCode s in
  (forall p fin r4,
     completion joined = IsPossiblyNormal p ->
     composeWithSavedCompletion C p r3 = (Ret fin, r4) ->
     result = let a := applyEffects C joined r4 in
           (match a.1 with Ret _ => outcomeOf fin | Raise e => Raise e end,
            mkSt a.2 (t0 ++ [Returned (EvComposeWithSavedCompletion p);
                             entry a.1 (EvApplyEffects joined)])))
  /\ ((forall p, completion joined <> IsPossiblyNormal p) ->
      result = let a := applyEffects C joined r3 in
            (match a.1 with
             | Ret _ => outcomeOf (completion joined)
             | Raise e => Raise e
             end,
             mkSt a.2 (t0 ++ [entry a.1 (EvApplyEffects joined)])))
  /\ (alternate = None ->
      e2 = construct_empty_effects C
             (pushPathCondition condValue false (popPathCondition r1)))
  /\ (forall a, outcomeOf (IsAbrupt a) = Raise (ThrowCompletion a))
  /\ (forall v, outcomeOf (IsValue v) = Ret v).
Proof.
  intros t0 result.
  assert (Hrun : result = joinAndCommit C condValue e1 e2
                         (mkSt (popPathCondition r2)
                               (trace s ++ [Returned (EvPush condValue true);
                                  Returned (EvEvaluateNodeForEffects consequent);
                                  Returned EvPop;
                                  Returned (EvPush condValue false);
                                  Returned (alternateSandboxEvent alternate);
                                  Returned EvPop]))).
  { unfold result, evaluateWithAbstractConditional.
    unfold tryInfeasible at 1. unfold withCondition.
    rewrite withAssumption_call_run, Hsandbox1. simpl.
    unfold tryInfeasible, withInverseCondition.
    rewrite sandboxAlternate_call, withAssumption_call_run. simpl.
    rewrite Hsandbox2. simpl. by rewrite <- !app_assoc. }
  rewrite joinAndCommit_run in Hrun. simpl in Hrun. rewrite Hjoin in Hrun.
  simpl in Hrun.
  repeat split; try done.
  - intros p fin r4 Hp Hcompose. rewrite Hrun, Hp. simpl.
    rewrite Hcompose. simpl. unfold t0. by rewrite <- !app_assoc.
  - intros Hnp. rewrite Hrun.
    destruct (completion joined) as [v|a|p|n]; simpl;
      try (unfold t0; by rewrite <- !app_assoc).
    by destruct (Hnp p).
  - intros ->. simpl in Hsandbox2. by inversion Hsandbox2.
Qed.

(** Scenario B of the spec: both sides return, the result is the merged
    value and there is one commit.  Scenario C: the consequent throws and
    the alternate returns [7]; the joined completion is possibly normal,
    it is composed, and [7] is returned. *)
Lemma fork_joins_composes_commits_witness :
  let runB := evaluateWithAbstractConditional
                (Scripted.collaborators Scripted.scenarioB) (Abs 7) 1 (Some 2)
                false (mkSt Scripted.realm0 []) in
  let runC := evaluateWithAbstractConditional
                (Scripted.collaborators Scripted.scenarioC) (Abs 7) 1 (Some 2)
                false (mkSt Scripted.realm0 []) in
  runB.1 = Ret (Cond (Abs 7) (Num 1) (Num 2))
  /\ realBindings (realm runB.2) !! 5 = Some (Cond (Abs 7) (Num 1) (Num 2))
  /\ countApplyEffects (trace runB.2) = 1
  /\ runC.1 = Ret (Num 7).
Proof.
  intros runB runC.
  pose (jB := Scripted.joined (Abs 7)
                (Scripted.effectsOf (IsValue (Num 1)) 5 (Num 1))
                (Scripted.effectsOf (IsValue (Num 2)) 5 (Num 2))
                (IsValue (Cond (Abs 7) (Num 1) (Num 2)))).
  pose (eC1 := Scripted.effectsOf (IsAbrupt (mkAbrupt Throw (Num 0) None))
                                  5 (Num 1)).
  pose (eC2 := Scripted.effectsOf (IsValue (Num 7)) 5 (Num 2)).
  pose (pC := Join.retain (Num 7) eC1 (mkAbrupt Throw (Num 0) None)
                          (Abs 7) false).
  pose (jC := Scripted.joined (Abs 7)
                (Join.contribution eC1 eC2) (Join.contribution eC2 eC1)
                (IsPossiblyNormal pC)).
  destruct (fork_joins_composes_commits
              (Scripted.collaborators Scripted.scenarioB) (Abs 7) 1 (Some 2)
              false (mkSt Scripted.realm0 []) _ _ jB _ _ _
              eq_refl eq_refl eq_refl) as (_ & HnB & _).
  destruct (fork_joins_composes_commits
              (Scripted.collaborators Scripted.scenarioC) (Abs 7) 1 (Some 2)
              false (mkSt Scripted.realm0 []) _ _ jC _ _ _
              eq_refl eq_refl eq_refl) as (HpC & _).
  split; [|split; [|split]].
  - unfold runB. rewrite HnB; [reflexivity|discriminate].
  - vm_compute. reflexivity.
  - vm_compute. reflexivity.
  - unfold runC.
    rewrite (HpC pC (IsValue (Num 7)) _ eq_refl eq_refl).
    reflexivity.
Defined.

(** ** The path-condition stack *)

Section PathBalance.

Context (C : Collaborators) (HC : Balanced C).

Lemma keeps_ret {A} (a : A) : keepsPathM (ret a).
Proof. by intros s. Qed.

Lemma keeps_bind {A B} (m : M A) (k : A -> M B) :
  keepsPathM m -> (forall a, keepsPathM (k a)) -> keepsPathM (bind m k).
Proof.
  intros Hm Hk s. unfold bind. specialize (Hm s).
  destruct (m s) as [[a|e] s']; simpl in *; [|done].
  by rewrite Hk.
Qed.

Lemma keeps_call {A} ev (f : Realm -> Res A * Realm) :
  keepsPath f -> keepsPathM (call ev f).
Proof. intros Hf s. rewrite call_run. simpl. apply Hf. Qed.

Lemma keeps_tryInfeasible {A B} (m : M A) (fallback : M B) (k : A -> M B) :
  keepsPathM m -> keepsPathM fallback -> (forall a, keepsPathM (k a)) ->
  keepsPathM (tryInfeasible m fallback k).
Proof.
  intros Hm Hf Hk s. unfold tryInfeasible. specialize (Hm s).
  destruct (m s) as [[a|[]] s']; simpl in *; try done.
  - by rewrite Hk.
  - by rewrite Hf.
Qed.

(** The scoped assumption: one entry more while the thunk runs, the
    same length as before once it is left, on every exit. *)
Lemma keeps_withAssumption {A} c truth (thunk : M A) :
  keepsPathM thunk -> keepsPathM (withAssumption c truth thunk).
Proof.
  intros Ht s. unfold withAssumption.
  specialize (Ht (mkSt (pushPathCondition c truth (realm s))
                       (trace s ++ [Returned (EvPush c truth)]))).
  destruct (thunk _) as [res s2]. simpl in *.
  destruct (pathConditions (realm s2)); simpl in *; lia.
Qed.

Lemma keeps_completeStatement x : keepsPathM (completeStatement x).
Proof. intros s. by rewrite completeStatement_run. Qed.

Lemma keeps_throwOrReturn x : keepsPathM (throwOrReturn x).
Proof. intros s. by rewrite throwOrReturn_run. Qed.

Lemma keeps_invariant b site : keepsPathM (invariant b site).
Proof. by destruct b. Qed.

Lemma keeps_direct ev (f : Realm -> Res Completion * Realm) :
  keepsPath f ->
  keepsPathM (let* stmtCompletion := call ev f in
              completeStatement stmtCompletion).
Proof.
  intros Hf. apply keeps_bind; [by apply keeps_call|].
  apply keeps_completeStatement.
Qed.

Lemma keeps_evaluateCompletionOrUndefined alternate strictCode :
  keepsPathM (let* stmtCompletion :=
                evaluateCompletionOrUndefined C alternate strictCode in
              completeStatement stmtCompletion).
Proof.
  apply keeps_bind; [|apply keeps_completeStatement].
  destruct alternate; [|apply keeps_ret].
  apply keeps_call, HC.
Qed.

Lemma keeps_evaluateOrUndefined alternate strictCode :
  keepsPathM (let* stmtCompletion :=
                evaluateOrUndefined C alternate strictCode in
              completeStatement stmtCompletion).
Proof.
  apply keeps_bind; [|apply keeps_completeStatement].
  destruct alternate; [|apply keeps_ret].
  apply keeps_call, HC.
Qed.

Lemma keeps_joinAndCommit condValue e1 e2 :
  keepsPathM (joinAndCommit C condValue e1 e2).
Proof.
  unfold joinAndCommit.
  apply keeps_bind; [apply keeps_call, HC|]. intros joinedEffects.
  apply keeps_bind.
  - destruct (completion joinedEffects); try apply keeps_ret.
    apply keeps_call, HC.
  - intros fin. apply keeps_bind; [apply keeps_call, HC|].
    intros _. apply keeps_throwOrReturn.
Qed.

Lemma keeps_evaluateWithAbstractConditional
    condValue consequent alternate strictCode :
  keepsPathM (evaluateWithAbstractConditional C condValue consequent alternate
                                              strictCode).
Proof.
  unfold evaluateWithAbstractConditional.
  apply keeps_tryInfeasible.
  - apply keeps_withAssumption, keeps_call, HC.
  - apply keeps_evaluateCompletionOrUndefined.
  - intros e1. apply keeps_tryInfeasible.
    + apply keeps_withAssumption. rewrite sandboxAlternate_call.
      apply keeps_call. destruct alternate; simpl; [apply HC|by intros r].
    + apply keeps_direct, HC.
    + intros e2. apply keeps_joinAndCommit.
Qed.

Lemma keeps_evaluate ast strictCode : keepsPathM (evaluate C ast strictCode).
Proof.
  unfold evaluate.
  apply keeps_bind; [apply keeps_call, HC|]. intros exprRef.
  apply keeps_bind; [apply keeps_call, HC|]. intros exprValue.
  destruct (isConcreteValue exprValue).
  - destruct (ToBoolean exprValue).
    + apply keeps_direct, HC.
    + apply keeps_evaluateCompletionOrUndefined.
  - apply keeps_bind; [apply keeps_invariant|]. intros _.
    apply keeps_bind; [apply keeps_call, HC|]. intros mnbt.
    destruct (negb mnbt); [apply keeps_direct, HC|].
    apply keeps_bind; [apply keeps_call, HC|]. intros mnbf.
    destruct (negb mnbf); [apply keeps_evaluateOrUndefined|].
    apply keeps_bind; [apply keeps_invariant|]. intros _.
    apply keeps_evaluateWithAbstractConditional.
Qed.

End PathBalance.

Lemma scripted_balanced sc : Balanced (Scripted.collaborators sc).
Proof. by split; intros; intros r. Qed.



(** ** The commit *)

Section Commit.

Context (C : Collaborators).

Lemma emits_weaken {A} (m : M A) (P Q : list Entry -> Prop) :
  (forall t, P t -> Q t) -> emits m P -> emits m Q.
Proof. intros HPQ Hm s. destruct (Hm s) as (t & Ht & HP). eauto. Qed.

Lemma quiet_ret {A} (a : A) : emits (ret a) (Forall quiet).
Proof. intros s. exists []. by rewrite app_nil_r. Qed.

Lemma quiet_raise {A} e : emits (@raise A e) (Forall quiet).
Proof. intros s. exists []. by rewrite app_nil_r. Qed.

Lemma quiet_invariant b site : emits (invariant b site) (Forall quiet).
Proof. destruct b; [apply quiet_ret|apply quiet_raise]. Qed.

Lemma quiet_call {A} ev (f : Realm -> Res A * Realm) :
  (forall r : Res A, quiet (entry r ev)) -> emits (call ev f) (Forall quiet).
Proof.
  intros Hev s. rewrite call_run. simpl. eexists. split; [done|].
  by repeat constructor.
Qed.

Lemma quiet_bind {A B} (m : M A) (k : A -> M B) :
  emits m (Forall quiet) -> (forall a, emits (k a) (Forall quiet)) ->
  emits (bind m k) (Forall quiet).
Proof.
  intros Hm Hk s. unfold bind. destruct (Hm s) as (t & Ht & Hq).
  destruct (m s) as [[a|e] s1]; simpl in *; [|eauto].
  destruct (Hk a s1) as (t' & Ht' & Hq').
  exists (t ++ t'). rewrite Ht', Ht, app_assoc. split; [done|].
  by apply Forall_app.
Qed.

Lemma quiet_withAssumption {A} c truth (thunk : M A) :
  emits thunk (Forall quiet) ->
  emits (withAssumption c truth thunk) (Forall quiet).
Proof.
  intros Ht s. unfold withAssumption.
  destruct (Ht (mkSt (pushPathCondition c truth (realm s))
                     (trace s ++ [Returned (EvPush c truth)])))
    as (t & Htr & Hq).
  destruct (thunk _) as [res s2]. simpl in *.
  exists ([Returned (EvPush c truth)] ++ t ++ [Returned EvPop]).
  rewrite Htr, <- !app_assoc. split; [done|].
  apply Forall_app; split; [by repeat constructor|].
  apply Forall_app; split; [done|by repeat constructor].
Qed.

Lemma quiet_completeStatement x : emits (completeStatement x) (Forall quiet).
Proof.
  intros s. rewrite completeStatement_run. exists []. by rewrite app_nil_r.
Qed.

Lemma quiet_direct ev (f : Realm -> Res Completion * Realm) :
  (forall r : Res Completion, quiet (entry r ev)) ->
  emits (let* stmtCompletion := call ev f in
         completeStatement stmtCompletion) (Forall quiet).
Proof.
  intros Hev. apply quiet_bind; [by apply quiet_call|].
  apply quiet_completeStatement.
Qed.

Lemma quiet_entry {A} ev :
  isCommitPhase (Returned ev) = false -> forall r : Res A, quiet (entry r ev).
Proof. intros Hev [a|e]; exact Hev. Qed.

Lemma CommitShape_prefix pre t :
  Forall quiet pre -> CommitShape C t -> CommitShape C (pre ++ t).
Proof.
  intros Hpre Ht. destruct Ht as [p Hp|p e1 e2 Hp|p e1 e2 q Hp
                                  |p c e1 e2 rj j mid x Hp Hj Hmid Hx].
  - apply NoCommit. by apply Forall_app.
  - rewrite app_assoc. apply JoinThrew. by apply Forall_app.
  - rewrite app_assoc. apply ComposeThrew. by apply Forall_app.
  - rewrite app_assoc. eapply Committed; eauto. by apply Forall_app.
Qed.

Lemma shaped_bind {A B} (m : M A) (k : A -> M B) :
  emits m (Forall quiet) -> (forall a, emits (k a) (CommitShape C)) ->
  emits (bind m k) (CommitShape C).
Proof.
  intros Hm Hk s. unfold bind. destruct (Hm s) as (t & Ht & Hq).
  destruct (m s) as [[a|e] s1]; simpl in *.
  - destruct (Hk a s1) as (t' & Ht' & Hs).
    exists (t ++ t'). rewrite Ht', Ht, app_assoc. split; [done|].
    by apply CommitShape_prefix.
  - exists t. split; [done|]. by apply NoCommit.
Qed.

Lemma shaped_tryInfeasible {A B} (m : M A) (fallback : M B) (k : A -> M B) :
  emits m (Forall quiet) -> emits fallback (CommitShape C) ->
  (forall a, emits (k a) (CommitShape C)) ->
  emits (tryInfeasible m fallback k) (CommitShape C).
Proof.
  intros Hm Hf Hk s. unfold tryInfeasible. destruct (Hm s) as (t & Ht & Hq).
  destruct (m s) as [[a|e] s1]; simpl in *.
  - destruct (Hk a s1) as (t' & Ht' & Hs).
    exists (t ++ t'). rewrite Ht', Ht, app_assoc. split; [done|].
    by apply CommitShape_prefix.
  - assert (Hstop : exists t0, trace s1 = trace s ++ t0 /\ CommitShape C t0)
      by (exists t; split; [done|by apply NoCommit]).
    destruct e; simpl; try exact Hstop.
    destruct (Hf s1) as (t' & Ht' & Hs).
    exists (t ++ t'). rewrite Ht', Ht, app_assoc. split; [done|].
    by apply CommitShape_prefix.
Qed.

Lemma shaped_quiet {A} (m : M A) :
  emits m (Forall quiet) -> emits m (CommitShape C).
Proof. apply emits_weaken. intros t. apply NoCommit. Qed.

Lemma shaped_joinAndCommit condValue e1 e2 :
  emits (joinAndCommit C condValue e1 e2) (CommitShape C).
Proof.
  intros s. rewrite joinAndCommit_run. simpl.
  destruct (joinEffects C condValue e1 e2 (realm s)) as [[j|e] rj] eqn:Hj;
    simpl.
  2:{ eexists. split; [done|]. apply (JoinThrew C []). constructor. }
  destruct (completion j) as [v|a|p|n]; simpl.
  1,2,4: eexists; (split; [by rewrite <- app_assoc|]);
         apply (Committed C [] condValue e1 e2 (realm s) j []);
         [constructor|by rewrite Hj|by left|];
         by destruct (applyEffects C j rj) as [[[]|] ?].
  destruct (composeWithSavedCompletion C p rj) as [[fin|e] rc]; simpl.
  - eexists. split; [by rewrite <- !app_assoc|].
    apply (Committed C [] condValue e1 e2 (realm s) j
             [Returned (EvComposeWithSavedCompletion p)]);
      [constructor|by rewrite Hj|right; by eexists|].
    by destruct (applyEffects C j rc) as [[[]|] ?].
  - eexists. split; [by rewrite <- !app_assoc|].
    apply (ComposeThrew C []). constructor.
Qed.

Lemma shaped_evaluateWithAbstractConditional
    condValue consequent alternate strictCode :
  emits (evaluateWithAbstractConditional C condValue consequent alternate
                                         strictCode) (CommitShape C).
Proof.
  unfold evaluateWithAbstractConditional.
  apply shaped_tryInfeasible.
  - apply quiet_withAssumption, quiet_call. by apply quiet_entry.
  - apply shaped_quiet, quiet_bind; [|apply quiet_completeStatement].
    destruct alternate; [|apply quiet_ret].
    apply quiet_call. by apply quiet_entry.
  - intros e1. apply shaped_tryInfeasible.
    + apply quiet_withAssumption. rewrite sandboxAlternate_call.
      apply quiet_call. destruct alternate; by apply quiet_entry.
    + apply shaped_quiet, quiet_direct. by apply quiet_entry.
    + intros e2. apply shaped_joinAndCommit.
Qed.

Lemma shaped_evaluate ast strictCode :
  emits (evaluate C ast strictCode) (CommitShape C).
Proof.
  unfold evaluate.
  apply shaped_bind; [apply quiet_call; by apply quiet_entry|].
  intros exprRef.
  apply shaped_bind; [apply quiet_call; by apply quiet_entry|].
  intros exprValue.
  destruct (isConcreteValue exprValue).
  - apply shaped_quiet, quiet_bind; [|apply quiet_completeStatement].
    destruct (ToBoolean exprValue);
      [apply quiet_call; by apply quiet_entry|].
    destruct (alternate ast); [|apply quiet_ret].
    apply quiet_call. by apply quiet_entry.
  - apply shaped_bind; [apply quiet_invariant|]. intros _.
    apply shaped_bind; [apply quiet_call; by apply quiet_entry|].
    intros mnbt.
    destruct (negb mnbt);
      [apply shaped_quiet, quiet_direct; by apply quiet_entry|].
    apply shaped_bind; [apply quiet_call; by apply quiet_entry|].
    intros mnbf.
    destruct (negb mnbf).
    + apply shaped_quiet, quiet_bind; [|apply quiet_completeStatement].
      destruct (alternate ast); [|apply quiet_ret].
      apply quiet_call. by apply quiet_entry.
    + apply shaped_bind; [apply quiet_invariant|]. intros _.
      apply shaped_evaluateWithAbstractConditional.
Qed.

End Commit.

Lemma countApplyEffects_app t1 t2 :
  countApplyEffects (t1 ++ t2) = countApplyEffects t1 + countApplyEffects t2.
Proof. unfold countApplyEffects. by rewrite filter_app, length_app. Qed.

Lemma quiet_elem pre x : Forall quiet pre -> x ∈ pre -> isCommitPhase x = false.
Proof. intros Hq Hx. by apply (proj1 (Forall_forall _ _) Hq). Qed.

Lemma countApplyEffects_quiet pre :
  Forall quiet pre -> countApplyEffects pre = 0.
Proof.
  induction 1 as [|x pre Hx _ IH]; [done|].
  change (x :: pre) with ([x] ++ pre).
  rewrite countApplyEffects_app, IH.
  unfold quiet, isCommitPhase in Hx. unfold countApplyEffects. simpl.
  unfold filter, list_filter. simpl. unfold isApplyEffects.
  case_decide as Hd; [|done]. by destruct (eventOf x).
Qed.

Lemma countApplyEffects_one x :
  countApplyEffects [x] = if isApplyEffects x then 1 else 0.
Proof.
  unfold countApplyEffects, filter, list_filter. simpl.
  case_decide as Hd; destruct (isApplyEffects x); done.
Qed.

Lemma CommitShape_facts C t :
  CommitShape C t ->
  countApplyEffects t <= 1
  /\ (countApplyEffects t = 1 <->
      (exists e1 e2, Returned (EvJoinEffects e1 e2) ∈ t)
      /\ (forall p, Threw (EvComposeWithSavedCompletion p) ∉ t))
  /\ (forall x e, x ∈ t -> eventOf x = EvApplyEffects e ->
        exists c e1 e2 rj, Returned (EvJoinEffects e1 e2) ∈ t
                           /\ (joinEffects C c e1 e2 rj).1 = Ret e).
Proof.
  intros [pre Hp|pre e1 e2 Hp|pre e1 e2 q Hp
          |pre c e1 e2 rj j mid x Hp Hj Hmid Hx].
  - rewrite (countApplyEffects_quiet _ Hp). split; [lia|]. split.
    + split; [lia|]. intros [(a & b & Hin) _].
      by pose proof (quiet_elem _ _ Hp Hin).
    + intros x e Hin Hx. pose proof (quiet_elem _ _ Hp Hin) as Hq.
      unfold isCommitPhase in Hq. by rewrite Hx in Hq.
  - rewrite countApplyEffects_app, (countApplyEffects_quiet _ Hp).
    rewrite countApplyEffects_one. simpl. split; [lia|]. split.
    + split; [lia|]. intros [(a & b & Hin) _].
      apply elem_of_app in Hin as [Hin|Hin].
      * by pose proof (quiet_elem _ _ Hp Hin).
      * by apply list_elem_of_singleton in Hin.
    + intros x e Hin Hx. apply elem_of_app in Hin as [Hin|Hin].
      * pose proof (quiet_elem _ _ Hp Hin) as Hq.
        unfold isCommitPhase in Hq. by rewrite Hx in Hq.
      * apply list_elem_of_singleton in Hin. by subst.
  - rewrite countApplyEffects_app, (countApplyEffects_quiet _ Hp).
    change (countApplyEffects [Returned (EvJoinEffects e1 e2);
                               Threw (EvComposeWithSavedCompletion q)])
      with 0.
    split; [lia|]. split.
    + split; [lia|]. intros [_ Hno]. destruct (Hno q).
      apply elem_of_app. right. apply elem_of_cons. right.
      by apply list_elem_of_singleton.
    + intros x e Hin Hx. apply elem_of_app in Hin as [Hin|Hin].
      * pose proof (quiet_elem _ _ Hp Hin) as Hq.
        unfold isCommitPhase in Hq. by rewrite Hx in Hq.
      * apply elem_of_cons in Hin as [->|Hin]; [done|].
        apply list_elem_of_singleton in Hin. by subst.
  - assert (Hjoin : Returned (EvJoinEffects e1 e2)
                      ∈ pre ++ Returned (EvJoinEffects e1 e2) :: mid ++ [x])
      by (apply elem_of_app; right; apply elem_of_cons; by left).
    assert (Hmid0 : countApplyEffects mid = 0)
      by (destruct Hmid as [->|[p ->]]; done).
    assert (Hx1 : isApplyEffects x = true)
      by (unfold isApplyEffects; by rewrite Hx).
    assert (Hcount : countApplyEffects
                       (pre ++ Returned (EvJoinEffects e1 e2) :: mid ++ [x])
                     = 1).
    { change (Returned (EvJoinEffects e1 e2) :: mid ++ [x])
        with ([Returned (EvJoinEffects e1 e2)] ++ mid ++ [x]).
      rewrite !countApplyEffects_app, (countApplyEffects_quiet _ Hp), Hmid0.
      rewrite !countApplyEffects_one, Hx1. done. }
    rewrite Hcount. split; [lia|]. split.
    + split; [|done]. intros _. split; [by eauto|].
      intros p Hin. apply elem_of_app in Hin as [Hin|Hin].
      * by pose proof (quiet_elem _ _ Hp Hin).
      * apply elem_of_cons in Hin as [?|Hin]; [done|].
        apply elem_of_app in Hin as [Hin|Hin].
        -- destruct Hmid as [->|[p' ->]].
           ++ by apply elem_of_nil in Hin.
           ++ by apply list_elem_of_singleton in Hin.
        -- apply list_elem_of_singleton in Hin. subst x. done.
    + intros y e Hin Hy. exists c, e1, e2, rj. split; [done|].
      apply elem_of_app in Hin as [Hin|Hin].
      * pose proof (quiet_elem _ _ Hp Hin) as Hq.
        unfold isCommitPhase in Hq. by rewrite Hy in Hq.
      * apply elem_of_cons in Hin as [->|Hin]; [done|].
        apply elem_of_app in Hin as [Hin|Hin].
        -- destruct Hmid as [->|[p' ->]].
           ++ by apply elem_of_nil in Hin.
           ++ apply list_elem_of_singleton in Hin. by subst.
        -- apply list_elem_of_singleton in Hin. subst y.
           rewrite Hx in Hy. by inversion Hy; subst.
Qed.



(** ** Errors of the sandboxed runs *)

(** C7, as amended.  The infeasible-path error thrown by a sandboxed run
    is caught: the outcome of the fork is then the outcome of the direct
    evaluation of the other branch.  Any other error thrown by a
    sandboxed run is the outcome of the fork, unchanged. *)
Theorem sandbox_errors_caught_or_propagated
    (C : Collaborators) (condValue : Value) (consequent : BabelNode)
    (alternate : option BabelNode) (strictCode : bool) (s : St) :
  let result :=
    (evaluateWithAbstractConditional C condValue consequent alternate
                                     strictCode s).1 in
  (forall r1,
     evaluateNodeForEffects C consequent strictCode
       (pushPathCondition condValue true (realm s))
       = (Raise InfeasiblePathError, r1) ->
     result = match alternate with
              | Some alt =>
                  (directBranch (env_evaluateCompletion C alt strictCode)
                                (popPathCondition r1)).1
              | None => Ret Undefined
              end)
  /\ (forall e1 r1 r2,
       evaluateNodeForEffects C consequent strictCode
         (pushPathCondition condValue true (realm s)) = (Ret e1, r1) ->
       alternateSandbox C alternate strictCode
         (pushPathCondition condValue false (popPathCondition r1))
         = (Raise InfeasiblePathError, r2) ->
       result = (directBranch (env_evaluate C consequent strictCode)
                              (popPathCondition r2)).1)
  /\ (forall e r1,
       e <> InfeasiblePathError ->
       evaluateNodeForEffects C consequent strictCode
         (pushPathCondition condValue true (realm s)) = (Raise e, r1) ->
       result = Raise e)
  /\ (forall e e1 r1 r2,
       e <> InfeasiblePathError ->
       evaluateNodeForEffects C consequent strictCode
         (pushPathCondition condValue true (realm s)) = (Ret e1, r1) ->
       alternateSandbox C alternate strictCode
         (pushPathCondition condValue false (popPathCondition r1))
         = (Raise e, r2) ->
       result = Raise e).
Proof.
  intros result. unfold result, evaluateWithAbstractConditional.
  split; [|split; [|split]].
  - intros r1 H1. unfold tryInfeasible at 1. unfold withCondition.
    rewrite withAssumption_call_run, H1. simpl.
    unfold evaluateCompletionOrUndefined. destruct alternate as [alt|].
    + by rewrite direct_run.
    + unfold bind, ret. by rewrite completeStatement_run.
  - intros e1 r1 r2 H1 H2. unfold tryInfeasible at 1. unfold withCondition.
    rewrite withAssumption_call_run, H1. simpl.
    unfold tryInfeasible, withInverseCondition.
    rewrite sandboxAlternate_call, withAssumption_call_run. simpl.
    rewrite H2. simpl. by rewrite direct_run.
  - intros e r1 Hne H1. unfold tryInfeasible at 1. unfold withCondition.
    rewrite withAssumption_call_run, H1. simpl. by destruct e.
  - intros e e1 r1 r2 Hne H1 H2. unfold tryInfeasible at 1.
    unfold withCondition.
    rewrite withAssumption_call_run, H1. simpl.
    unfold tryInfeasible, withInverseCondition.
    rewrite sandboxAlternate_call, withAssumption_call_run. simpl.
    rewrite H2. simpl. by destruct e.
Qed.

(** A faulty sandboxed run of the consequent: its error is the outcome. *)
Lemma sandbox_errors_caught_or_propagated_witness :
  (evaluateWithAbstractConditional
     (Scripted.collaborators Scripted.faultyConsequent) (Abs 7) 1 (Some 2)
     false (mkSt Scripted.realm0 [])).1 = Raise (FatalError 3)
  /\ (evaluateWithAbstractConditional
        (Scripted.collaborators Scripted.scenarioE) (Abs 7) 1 (Some 2)
        false (mkSt Scripted.realm0 [])).1 = Ret (Num 2).
Proof.
  split.
  - destruct (sandbox_errors_caught_or_propagated
                (Scripted.collaborators Scripted.faultyConsequent) (Abs 7) 1
                (Some 2) false (mkSt Scripted.realm0 []))
      as (_ & _ & Hother & _).
    eapply (Hother (FatalError 3)); [discriminate|reflexivity].
  - destruct (sandbox_errors_caught_or_propagated
                (Scripted.collaborators Scripted.scenarioE) (Abs 7) 1
                (Some 2) false (mkSt Scripted.realm0 []))
      as (Hcaught & _).
    rewrite (Hcaught _ eq_refl). reflexivity.
Defined.

(** C7 as stated does not hold: when [mightNotBeTrue()] throws the
    infeasible-path error, no handler is around it and the error is the
    outcome of the evaluator. *)
Lemma infeasible_query_escapes :
  (runEvaluate (Scripted.collaborators Scripted.infeasibleQuery)
               Scripted.ifElse false Scripted.realm0).1
  = Raise InfeasiblePathError.
Proof. reflexivity. Qed.

(** ** How a run ends *)

Section Settled.

Context (C : Collaborators).

Lemma threwLast_prefix pre t : threwLast t -> threwLast (pre ++ t).
Proof.
  intros (p & ev & [->| ->]); exists (pre ++ p), ev;
    rewrite app_assoc; auto.
Qed.

Lemma settled_prefix noRef pre t res :
  settled noRef t res -> settled noRef (pre ++ t) res.
Proof.
  assert (Hq : Forall quiet (pre ++ t) -> Forall quiet t)
    by (intros H; by apply Forall_app in H as [_ ?]).
  destruct res as [v|e]; simpl; [by auto|].
  intros [Ht|He]; [left; by apply threwLast_prefix|right].
  destruct e as [a| |[]|]; auto.
Qed.

Lemma raised_call {A} ev (f : Realm -> Res A * Realm) :
  tracks (call ev f) raisedByCall.
Proof.
  intros s. rewrite call_run. simpl. eexists. split; [done|].
  intros e He. rewrite He. simpl. exists [], ev. by left.
Qed.

Lemma raised_withAssumption {A} c truth ev (f : Realm -> Res A * Realm) :
  tracks (withAssumption c truth (call ev f)) raisedByCall.
Proof.
  intros s. rewrite withAssumption_call_run. simpl. eexists.
  split; [done|]. intros e He. rewrite He. simpl.
  exists [Returned (EvPush c truth)], ev. by right.
Qed.

Lemma settled_bind {A} noRef (m : M A) (k : A -> M Value) :
  tracks m raisedByCall -> (forall a, tracks (k a) (settled noRef)) ->
  tracks (bind m k) (settled noRef).
Proof.
  intros Hm Hk s. unfold bind. destruct (Hm s) as (t & Ht & Hr).
  destruct (m s) as [[a|e] s1]; simpl in *.
  - destruct (Hk a s1) as (t' & Ht' & Hs).
    exists (t ++ t'). rewrite Ht', Ht, app_assoc. split; [done|].
    by apply settled_prefix.
  - exists t. split; [done|]. left. by apply (Hr e).
Qed.

Lemma settled_tryInfeasible {A} noRef (m : M A) (fallback : M Value)
    (k : A -> M Value) :
  tracks m raisedByCall -> tracks fallback (settled noRef) ->
  (forall a, tracks (k a) (settled noRef)) ->
  tracks (tryInfeasible m fallback k) (settled noRef).
Proof.
  intros Hm Hf Hk s. unfold tryInfeasible. destruct (Hm s) as (t & Ht & Hr).
  destruct (m s) as [[a|e] s1]; simpl in *.
  - destruct (Hk a s1) as (t' & Ht' & Hs).
    exists (t ++ t'). rewrite Ht', Ht, app_assoc. split; [done|].
    by apply settled_prefix.
  - assert (Hstop : exists t0, trace s1 = trace s ++ t0
                               /\ settled noRef t0 (Raise e))
      by (exists t; split; [done|left; by apply (Hr e)]).
    destruct e; simpl; try exact Hstop.
    destruct (Hf s1) as (t' & Ht' & Hs).
    exists (t ++ t'). rewrite Ht', Ht, app_assoc. split; [done|].
    by apply settled_prefix.
Qed.

Lemma settled_normalizedOutcome noRef x t :
  (noRef -> isReference x = false) -> settled noRef t (normalizedOutcome x).
Proof.
  intros Hx. destruct x as [v|a|p|n].
  - rewrite normalizedOutcome_value. simpl. intros _. by destruct v.
  - rewrite normalizedOutcome_abrupt. simpl. right. intros _.
    by destruct (value a).
  - rewrite normalizedOutcome_possiblyNormal. simpl. by right.
  - rewrite normalizedOutcome_reference. simpl. right.
    intros HnoRef. by specialize (Hx HnoRef).
Qed.

Lemma settled_direct noRef ev (f : Realm -> Res Completion * Realm) :
  (noRef -> forall r x r', f r = (Ret x, r') -> isReference x = false) ->
  tracks (let* stmtCompletion := call ev f in
          completeStatement stmtCompletion) (settled noRef).
Proof.
  intros Hf s. rewrite direct_run. simpl. eexists. split; [done|].
  unfold directBranch. destruct (f (realm s)) as [[x|e] r'] eqn:Hfr; simpl.
  - apply settled_normalizedOutcome. intros HnoRef. by eapply (Hf HnoRef).
  - left. exists [], ev. by left.
Qed.

Lemma settled_undefined noRef :
  tracks (let* stmtCompletion := ret (IsValue Undefined) in
          completeStatement stmtCompletion) (settled noRef).
Proof.
  intros s. unfold bind, ret. rewrite completeStatement_run. simpl.
  exists []. by rewrite app_nil_r.
Qed.

Lemma settled_joinAndCommit noRef condValue e1 e2 :
  tracks (joinAndCommit C condValue e1 e2) (settled noRef).
Proof.
  intros s. rewrite joinAndCommit_run. simpl.
  assert (Hloud : forall (pre post : list Entry) ev,
             isCommitPhase ev = true -> ~ Forall quiet (pre ++ ev :: post)).
  { intros pre post ev Hev Hq. apply Forall_app in Hq as [_ Hq].
    inversion Hq as [|? ? Hq1 _]. unfold quiet in Hq1. congruence. }
  destruct (joinEffects C condValue e1 e2 (realm s)) as [[j|e] rj]; simpl.
  2:{ eexists. split; [done|]. left. eexists [], _. by left. }
  assert (Happly : forall fin rc (t0 : list Entry),
    settled noRef
      (t0 ++ [entry (applyEffects C j rc).1 (EvApplyEffects j)])
      (match (applyEffects C j rc).1 with
       | Ret _ => outcomeOf fin
       | Raise e => Raise e
       end)).
  { intros fin rc t0.
    destruct (applyEffects C j rc) as [[[]|e] ra]; simpl.
    - destruct fin as [v|a|p|n]; simpl.
      + intros Hq. by apply Hloud in Hq.
      + right. intros Hq. by apply Hloud in Hq.
      + by right.
      + by right.
    - left. exists t0, (EvApplyEffects j). by left. }
  destruct (completion j) as [v|a|p|n] eqn:Hk.
  1,2,4: exists ([Returned (EvJoinEffects e1 e2)]
                 ++ [entry (applyEffects C j rj).1 (EvApplyEffects j)]);
         (split; [simpl; by rewrite <- app_assoc|]);
         rewrite <- Hk; apply Happly.
  simpl.
  destruct (composeWithSavedCompletion C p rj) as [[fin|e] rc]; simpl.
  - exists ([Returned (EvJoinEffects e1 e2);
             Returned (EvComposeWithSavedCompletion p)]
            ++ [entry (applyEffects C j rc).1 (EvApplyEffects j)]).
    split; [by rewrite <- !app_assoc|]. apply Happly.
  - eexists. split; [by rewrite <- !app_assoc|]. left.
    exists [Returned (EvJoinEffects e1 e2)],
           (EvComposeWithSavedCompletion p). by left.
Qed.

Lemma raised_ret {A} (a : A) : tracks (ret a) raisedByCall.
Proof. intros s. exists []. rewrite app_nil_r. split; [done|]. by intros e. Qed.

Lemma settled_evaluateWithAbstractConditional
    condValue consequent alternate strictCode :
  tracks (evaluateWithAbstractConditional C condValue consequent alternate
                                          strictCode)
         (settled (neverReference C consequent alternate)).
Proof.
  unfold evaluateWithAbstractConditional.
  apply settled_tryInfeasible.
  - apply raised_withAssumption.
  - destruct alternate as [alt|]; [|apply settled_undefined].
    apply settled_direct. intros HC r x r'.
    apply (HC alt); by right.
  - intros e1. apply settled_tryInfeasible.
    + rewrite sandboxAlternate_call. apply raised_withAssumption.
    + apply settled_direct. intros HC r x r'.
      apply (HC consequent); by left.
    + intros e2. apply settled_joinAndCommit.
Qed.

Lemma settled_evaluate ast strictCode :
  tracks (evaluate C ast strictCode)
         (settled (neverReference C (consequent ast) (alternate ast))).
Proof.
  unfold evaluate.
  apply settled_bind; [apply raised_call|]. intros exprRef.
  apply settled_bind; [apply raised_call|]. intros exprValue.
  unfold isAbstractValue.
  destruct (isConcreteValue exprValue); simpl.
  - destruct (ToBoolean exprValue).
    + apply settled_direct. intros HC r x r'.
      apply (HC (consequent ast)); by left.
    + destruct (alternate ast) as [alt|]; [|apply settled_undefined].
      apply settled_direct. intros HC r x r'.
      apply (HC alt); by right.
  - apply settled_bind; [apply raised_ret|]. intros _.
    apply settled_bind; [apply raised_call|]. intros mnbt.
    destruct (negb mnbt).
    { apply settled_direct. intros HC r x r'.
      apply (HC (consequent ast)); by left. }
    apply settled_bind; [apply raised_call|]. intros mnbf.
    destruct (negb mnbf).
    { destruct (alternate ast) as [alt|]; [|apply settled_undefined].
      apply settled_direct. intros HC r x r'.
      apply (HC alt); by right. }
    apply settled_bind; [apply raised_ret|]. intros _.
    apply settled_evaluateWithAbstractConditional.
Qed.

End Settled.

(** ** Normalization *)

(** A direct evaluation that hands back [x], not a [Reference], followed
    by the completing block: the outcome is that of [x] after
    [UpdateEmpty] with [undefined]. *)
Lemma direct_run_returned ev (f : Realm -> Res Completion * Realm) s x r' :
  f (realm s) = (Ret x, r') -> isReference x = false ->
  (let* stmtCompletion := call ev f in completeStatement stmtCompletion) s
  = (outcomeOf (UpdateEmpty x Undefined), mkSt r' (trace s ++ [Returned ev])).
Proof.
  intros Hf Hx. rewrite direct_run. unfold directBranch. rewrite Hf. simpl.
  unfold normalizedOutcome. by rewrite Hx.
Qed.

Lemma undefined_run_returned s :
  (let* stmtCompletion := ret (IsValue Undefined) in
   completeStatement stmtCompletion) s
  = (outcomeOf (UpdateEmpty (IsValue Undefined) Undefined), s).
Proof. unfold bind, ret. by rewrite completeStatement_run. Qed.

(** C9, as amended.  On each of the five paths that evaluate a branch
    directly (the concrete condition, the condition proved true, the
    condition proved false, the fallback after an infeasible consequent
    and the fallback after an infeasible alternate), when the branch
    evaluation hands back a completion [x] (or [undefined] is taken for
    an absent alternate), the outcome is that of [UpdateEmpty x
    undefined]: it is thrown when abrupt and its value is returned
    otherwise.  [UpdateEmpty] replaces an empty completion value by the
    given value, keeping kind and target, and leaves every other
    completion as it is.  So on every run that ends before the commit
    block a returned value is never the empty marker, and a thrown abrupt
    completion carries the empty marker only when it is the error of a
    call that threw. *)
Theorem direct_paths_normalize
    (C : Collaborators) (ast : BabelNodeIfStatement) (strictCode : bool)
    (r : Realm) :
  let out := runEvaluate C ast strictCode r in
  (forall exprRef r1 exprValue r2 x r3,
     env_evaluate C (test ast) strictCode r = (Ret exprRef, r1) ->
     GetConditionValue C exprRef r1 = (Ret exprValue, r2) ->
     isConcreteValue exprValue = true ->
     match (if ToBoolean exprValue then Some (consequent ast)
            else alternate ast) with
     | Some n => env_evaluateCompletion C n strictCode r2 = (Ret x, r3)
     | None => x = IsValue Undefined
     end ->
     isReference x = false ->
     out.1 = outcomeOf (UpdateEmpty x Undefined))
  /\ (forall exprRef r1 exprValue r2 r3 x r4,
       env_evaluate C (test ast) strictCode r = (Ret exprRef, r1) ->
       GetConditionValue C exprRef r1 = (Ret exprValue, r2) ->
       isConcreteValue exprValue = false ->
       mightNotBeTrue C exprValue r2 = (Ret false, r3) ->
       env_evaluate C (consequent ast) strictCode r3 = (Ret x, r4) ->
       isReference x = false ->
       out.1 = outcomeOf (UpdateEmpty x Undefined))
  /\ (forall exprRef r1 exprValue r2 r3 r4 x r5,
       env_evaluate C (test ast) strictCode r = (Ret exprRef, r1) ->
       GetConditionValue C exprRef r1 = (Ret exprValue, r2) ->
       isConcreteValue exprValue = false ->
       mightNotBeTrue C exprValue r2 = (Ret true, r3) ->
       mightNotBeFalse C exprValue r3 = (Ret false, r4) ->
       match alternate ast with
       | Some alt => env_evaluate C alt strictCode r4 = (Ret x, r5)
       | None => x = IsValue Undefined
       end ->
       isReference x = false ->
       out.1 = outcomeOf (UpdateEmpty x Undefined))
  /\ (forall condValue consequent alternate s r1 x r2,
       evaluateNodeForEffects C consequent strictCode
         (pushPathCondition condValue true (realm s))
         = (Raise InfeasiblePathError, r1) ->
       match alternate with
       | Some alt =>
           env_evaluateCompletion C alt strictCode (popPathCondition r1)
           = (Ret x, r2)
       | None => x = IsValue Undefined
       end ->
       isReference x = false ->
       (evaluateWithAbstractConditional C condValue consequent alternate
                                        strictCode s).1
       = outcomeOf (UpdateEmpty x Undefined))
  /\ (forall condValue consequent alternate s e1 r1 r2 x r3,
       evaluateNodeForEffects C consequent strictCode
         (pushPathCondition condValue true (realm s)) = (Ret e1, r1) ->
       alternateSandbox C alternate strictCode
         (pushPathCondition condValue false (popPathCondition r1))
         = (Raise InfeasiblePathError, r2) ->
       env_evaluate C consequent strictCode (popPathCondition r2)
         = (Ret x, r3) ->
       isReference x = false ->
       (evaluateWithAbstractConditional C condValue consequent alternate
                                        strictCode s).1
       = outcomeOf (UpdateEmpty x Undefined))
  /\ (forall v d, UpdateEmpty (IsValue v) d
                  = IsValue (if decide (v = Empty) then d else v))
  /\ (forall a d, UpdateEmpty (IsAbrupt a) d
                  = IsAbrupt (mkAbrupt (kind a)
                                (if decide (value a = Empty) then d
                                 else value a)
                                (target a)))
  /\ (forall a v, value a <> Empty -> UpdateEmpty (IsAbrupt a) v = IsAbrupt a)
  /\ (Forall quiet (trace out.2) ->
      (forall v, out.1 = Ret v -> v <> Empty)
      /\ (forall a, out.1 = Raise (ThrowCompletion a) -> value a = Empty ->
                    threwLast (trace out.2))).
Proof.
  intros out.
  split; [|split; [|split; [|split; [|split; [|split; [|split; [|split]]]]]]].
  - intros exprRef r1 exprValue r2 x r3 Htest Hcond Hconcrete Hbranch Hx.
    unfold out, runEvaluate, evaluate.
    unfold bind at 1. rewrite call_run. simpl. rewrite Htest. simpl.
    unfold bind at 1. rewrite call_run. simpl. rewrite Hcond. simpl.
    rewrite Hconcrete. destruct (ToBoolean exprValue).
    + by rewrite (direct_run_returned _ _ _ x r3).
    + unfold evaluateCompletionOrUndefined.
      destruct (alternate ast) as [alt|].
      * by rewrite (direct_run_returned _ _ _ x r3).
      * subst x. by rewrite undefined_run_returned.
  - intros exprRef r1 exprValue r2 r3 x r4 Htest Hcond Habs Htrue Hbranch Hx.
    unfold out, runEvaluate, evaluate.
    unfold bind at 1. rewrite call_run. simpl. rewrite Htest. simpl.
    unfold bind at 1. rewrite call_run. simpl. rewrite Hcond. simpl.
    unfold isAbstractValue. rewrite Habs. simpl.
    unfold bind at 1. unfold ret at 1.
    unfold bind at 1. rewrite call_run. simpl. rewrite Htrue. simpl.
    by rewrite (direct_run_returned _ _ _ x r4).
  - intros exprRef r1 exprValue r2 r3 r4 x r5 Htest Hcond Habs Htrue Hfalse
           Hbranch Hx.
    unfold out, runEvaluate, evaluate.
    unfold bind at 1. rewrite call_run. simpl. rewrite Htest. simpl.
    unfold bind at 1. rewrite call_run. simpl. rewrite Hcond. simpl.
    unfold isAbstractValue. rewrite Habs. simpl.
    unfold bind at 1. unfold ret at 1.
    unfold bind at 1. rewrite call_run. simpl. rewrite Htrue. simpl.
    unfold bind at 1. rewrite call_run. simpl. rewrite Hfalse. simpl.
    unfold evaluateOrUndefined. destruct (alternate ast) as [alt|].
    + by rewrite (direct_run_returned _ _ _ x r5).
    + subst x. by rewrite undefined_run_returned.
  - intros condValue consequent alternate s r1 x r2 H1 Hbranch Hx.
    unfold evaluateWithAbstractConditional, tryInfeasible, withCondition.
    rewrite withAssumption_call_run, H1. simpl.
    unfold evaluateCompletionOrUndefined. destruct alternate as [alt|].
    + by rewrite (direct_run_returned _ _ _ x r2).
    + subst x. by rewrite undefined_run_returned.
  - intros condValue consequent alternate s e1 r1 r2 x r3 H1 H2 Hbranch Hx.
    unfold evaluateWithAbstractConditional.
    unfold tryInfeasible at 1. unfold withCondition.
    rewrite withAssumption_call_run, H1. simpl.
    unfold tryInfeasible, withInverseCondition.
    rewrite sandboxAlternate_call, withAssumption_call_run. simpl.
    rewrite H2. simpl. by rewrite (direct_run_returned _ _ _ x r3).
  - intros v d. by destruct v.
  - intros [k v t] d. by destruct v.
  - intros [k w t] v Hw. simpl in Hw. by destruct w.
  - intros Hq.
    destruct (settled_evaluate C ast strictCode (mkSt r [])) as (t & Ht & Hs).
    fold (runEvaluate C ast strictCode r) in Ht, Hs. fold out in Ht, Hs.
    simpl in Ht. rewrite <- Ht in Hs. split.
    + intros v Hv. rewrite Hv in Hs. by apply Hs.
    + intros a Ha Hempty. rewrite Ha in Hs. destruct Hs as [Hs|Hs]; [done|].
      by destruct (Hs Hq).
Qed.

(** On [if (true) {}] the consequent hands back the empty marker and the
    outcome is that of [UpdateEmpty] on it: [undefined] is returned. *)
Lemma direct_paths_normalize_witness :
  (runEvaluate (Scripted.collaborators Scripted.emptyBlock)
               Scripted.ifOnly false Scripted.realm0).1
  = outcomeOf (UpdateEmpty (IsValue Empty) Undefined).
Proof.
  destruct (direct_paths_normalize
              (Scripted.collaborators Scripted.emptyBlock)
              Scripted.ifOnly false Scripted.realm0) as [Hconcrete _].
  exact (Hconcrete (IsValue (Bool true)) Scripted.realm0 (Bool true)
                   Scripted.realm0 (IsValue Empty) Scripted.realm0
                   eq_refl eq_refl eq_refl eq_refl eq_refl).
Defined.

(** C9 as stated does not hold on the fork path: for
    [if (x) {} else break] with an abstract [x] both sandboxed runs
    return, the effects are joined and committed, and the evaluator
    returns the empty marker, where normalization would give
    [undefined]. *)
Lemma fork_result_not_normalized :
  let out := runEvaluate (Scripted.collaborators Scripted.emptyFork)
                         Scripted.ifElse false Scripted.realm0 in
  out.1 = Ret Empty
  /\ countApplyEffects (trace out.2) = 1
  /\ outcomeOf (UpdateEmpty (IsValue Empty) Undefined) = Ret Undefined.
Proof. vm_compute. done. Qed.

(** ** The assertion on references *)

(** C10.  The block that completes a directly evaluated branch fails its
    first assertion when the branch handed back a [Reference], before
    any normalization.  When [env.evaluate] and [env.evaluateCompletion]
    never hand back a [Reference] for the consequent and the alternate
    (for the test they may), that assertion never fails: every run
    returns a value, or throws an abrupt completion, or fails the final
    [invariant], or ends with the error of a call that threw. *)
Theorem reference_assertion_unreachable
    (C : Collaborators) (ast : BabelNodeIfStatement)
    (HC : neverReference C (consequent ast) (alternate ast))
    (strictCode : bool) (r : Realm) :
  let out := runEvaluate C ast strictCode r in
  (forall n s, completeStatement (IsReference n) s
               = (Raise (InvariantViolation NotAReference), s))
  /\ (out.1 = Raise (InvariantViolation NotAReference) ->
      threwLast (trace out.2))
  /\ ((exists v, out.1 = Ret v)
      \/ (exists a, out.1 = Raise (ThrowCompletion a))
      \/ out.1 = Raise (InvariantViolation IsAValue)
      \/ (exists e, out.1 = Raise e /\ threwLast (trace out.2))).
Proof.
  intros out. split; [done|].
  destruct (settled_evaluate C ast strictCode (mkSt r [])) as (t & Ht & Hs).
  fold (runEvaluate C ast strictCode r) in Ht, Hs. fold out in Ht, Hs.
  simpl in Ht. rewrite <- Ht in Hs. split.
  - intros Hout. rewrite Hout in Hs. by destruct Hs as [Hs|Hs].
  - destruct out.1 as [v|e]; [by eauto|].
    destruct Hs as [Hs|Hs]; [by eauto 10|].
    destruct e as [a| |[]|]; try done; eauto 10.
Qed.

(** Scenario D with a test that evaluates to a [Reference]: the branches
    never do, and the run returns the alternate's value. *)
Lemma reference_assertion_unreachable_witness :
  let C := withReferenceTest Scripted.scenarioD (Abs 7) in
  let out := runEvaluate C Scripted.ifElse false Scripted.realm0 in
  (env_evaluate C (test Scripted.ifElse) false Scripted.realm0).1
    = Ret (IsReference 0)
  /\ out.1 = Ret (Num 2)
  /\ ((exists v, out.1 = Ret v)
      \/ (exists a, out.1 = Raise (ThrowCompletion a))
      \/ out.1 = Raise (InvariantViolation IsAValue)
      \/ (exists e, out.1 = Raise e /\ threwLast (trace out.2))).
Proof.
  intros C out.
  assert (HC : neverReference C (consequent Scripted.ifElse)
                              (alternate Scripted.ifElse)).
  { intros n [->|[= <-]]; split; intros b r x r'; simpl;
      intros [= <- _]; reflexivity. }
  split; [reflexivity|]. split; [reflexivity|].
  exact (proj2 (proj2 (reference_assertion_unreachable
                         C Scripted.ifElse HC false Scripted.realm0))).
Defined.

(** ** The join law *)

Section JoinLaw.

Import Join.

Lemma appendGenerator_Done g : appendGenerator g Done = g.
Proof. induction g; simpl; congruence. Qed.

(** Specializing is a projection: a second pass changes nothing. *)
Lemma specializeValue_idem c b v :
  specializeValue c b (specializeValue c b v) = specializeValue c b v.
Proof.
  induction v as [| | | | |g _ x IHx y IHy]; simpl; try done.
  destruct (decide (g = c)) as [->|Hne].
  - by destruct b.
  - simpl. rewrite decide_False by done. by rewrite IHx, IHy.
Qed.

Lemma joinCompletions_law c b e1 e2 k :
  joinCompletions c e1 e2 = Some k ->
  specializeCompletion c b k
  = specializeCompletion c b (completion (side b e1 e2)).
Proof.
  unfold joinCompletions.
  destruct (completion e1) as [v1|a1|p1|n1] eqn:H1,
           (completion e2) as [v2|a2|p2|n2] eqn:H2; simpl; try done.
  - intros [= <-]. simpl. rewrite decide_True by done.
    destruct b; simpl; by rewrite ?H1, ?H2.
  - intros [= <-]. simpl. rewrite decide_True by done.
    destruct b; simpl; by rewrite ?H1, ?H2.
  - intros [= <-]. simpl. rewrite decide_True by done.
    destruct b; simpl; by rewrite ?H1, ?H2.
  - case_decide as Hsame; [|done]. intros [= <-].
    destruct Hsame as [Hk Ht]. simpl. unfold specializeAbrupt. simpl.
    rewrite decide_True by done.
    destruct b; simpl; rewrite ?H1, ?H2; simpl; [done|].
    unfold specializeAbrupt. by rewrite Hk, Ht.
Qed.

Lemma lookup_joinDelta `{Countable K} c (store m1 m2 : gmap K Value) k :
  joinDelta c store m1 m2 !! k
  = match m1 !! k, m2 !! k with
    | None, None => None
    | o1, o2 => Some (Cond c (default (readSlot store k) o1)
                             (default (readSlot store k) o2))
    end.
Proof.
  unfold joinDelta. rewrite map_lookup_imap, lookup_merge.
  by destruct (m1 !! k), (m2 !! k).
Qed.

Lemma observeSlot_joinDelta `{Countable K} c b (store m1 m2 : gmap K Value) k :
  observeSlot c b (joinDelta c store m1 m2) store k
  = observeSlot c b (if b then m1 else m2) store k.
Proof.
  unfold observeSlot, applyDelta, readSlot.
  rewrite !lookup_union, lookup_joinDelta.
  destruct (m1 !! k) as [v1|] eqn:H1, (m2 !! k) as [v2|] eqn:H2;
    destruct b; rewrite ?H1, ?H2; unfold readSlot;
    destruct (store !! k); simpl; rewrite ?decide_True by done; done.
Qed.

Lemma observeSlot_empty `{Countable K} c b (store : gmap K Value) k :
  observeSlot c b ∅ store k = specializeValue c b (readSlot store k).
Proof.
  unfold observeSlot, applyDelta, readSlot.
  by rewrite lookup_union, lookup_empty, (left_id_L None _).
Qed.

(** What the joined effects show of the side that [b] selects: what that
    side brings in. *)
Lemma joined_shows_contribution r c e1 e2 j b :
  joinEffects r c e1 e2 = Some j ->
  let s := contribution (side b e1 e2) (side (negb b) e1 e2) in
  specializeGenerator c b (generator j) = specializeGenerator c b (generator s)
  /\ (forall k, observeSlot c b (bindings j) (realBindings r) k
                = observeSlot c b (bindings s) (realBindings r) k)
  /\ (forall k, observeSlot c b (properties j) (realProperties r) k
                = observeSlot c b (properties s) (realProperties r) k).
Proof.
  unfold joinEffects. destruct (joinCompletions c e1 e2) as [k|]; [|done].
  simpl. intros [= <-]. simpl.
  split; [|split].
  - rewrite decide_True by done. rewrite appendGenerator_Done.
    by destruct b.
  - intros k0. rewrite (observeSlot_joinDelta c b). by destruct b.
  - intros k0. rewrite (observeSlot_joinDelta c b). by destruct b.
Qed.

Lemma joined_completion r c e1 e2 j :
  joinEffects r c e1 e2 = Some j ->
  joinCompletions c e1 e2 = Some (completion j).
Proof.
  unfold joinEffects. destruct (joinCompletions c e1 e2) as [k|]; [|done].
  simpl. by intros [= <-].
Qed.

End JoinLaw.




(** * Further properties of the evaluator *)

(** ** The protocol of calls *)

Section Protocol.

Context (C : Collaborators).

Lemma entry_event {A} (res : Res A) ev : eventOf (entry res ev) = ev.
Proof. by destruct res. Qed.

Lemma commitTrace_joinAndCommit condValue e1 e2 :
  emits (joinAndCommit C condValue e1 e2) CommitTrace.
Proof.
  intros s. rewrite joinAndCommit_run. simpl.
  destruct (joinEffects C condValue e1 e2 (realm s)) as [[j|e] rj]; simpl.
  2:{ eexists. split; [done|]. constructor. }
  destruct (completion j) as [v|a|p|n]; simpl.
  1,2,4: eexists; (split; [by rewrite <- app_assoc|]);
         apply (CommitApplied e1 e2 j); apply entry_event.
  destruct (composeWithSavedCompletion C p rj) as [[fin|e] rc]; simpl.
  - eexists. split; [by rewrite <- !app_assoc|].
    apply (CommitComposedApplied e1 e2 p j). apply entry_event.
  - eexists. split; [by rewrite <- !app_assoc|]. constructor.
Qed.

Lemma forkTrace_evaluateWithAbstractConditional
    condValue consequent alternate strictCode :
  emits (evaluateWithAbstractConditional C condValue consequent alternate
                                         strictCode)
        (ForkTrace condValue consequent alternate).
Proof.
  intros s. unfold evaluateWithAbstractConditional.
  unfold tryInfeasible at 1. unfold withCondition.
  rewrite withAssumption_call_run. simpl.
  destruct (evaluateNodeForEffects C consequent strictCode
              (pushPathCondition condValue true (realm s)))
    as [[e1|e] r1]; simpl.
  - unfold tryInfeasible, withInverseCondition.
    rewrite sandboxAlternate_call, withAssumption_call_run. simpl.
    destruct (alternateSandbox C alternate strictCode
                (pushPathCondition condValue false (popPathCondition r1)))
      as [[e2|e] r2]; simpl.
    + match goal with
      | |- context [joinAndCommit C condValue e1 e2 ?s'] =>
          destruct (commitTrace_joinAndCommit condValue e1 e2 s')
            as (t & Ht & Hc)
      end.
      simpl in Ht. rewrite Ht.
      eexists. split; [by rewrite <- !app_assoc|].
      by apply (ForkCommit condValue consequent alternate).
    + assert (Hstop : exists t,
                (trace s ++ [Returned (EvPush condValue true);
                             Returned (EvEvaluateNodeForEffects consequent);
                             Returned EvPop])
                ++ [Returned (EvPush condValue false);
                    Threw (alternateSandboxEvent alternate); Returned EvPop]
                = trace s ++ t
                /\ ForkTrace condValue consequent alternate t).
      { eexists. split; [by rewrite <- !app_assoc|]. constructor. }
      destruct e; simpl; try exact Hstop.
      rewrite direct_run. simpl.
      eexists. split; [by rewrite <- !app_assoc|].
      apply ForkAlternateInfeasible. apply entry_event.
  - assert (Hstop : exists t,
              trace s ++ [Returned (EvPush condValue true);
                          Threw (EvEvaluateNodeForEffects consequent);
                          Returned EvPop] = trace s ++ t
              /\ ForkTrace condValue consequent alternate t).
    { eexists. split; [done|]. constructor. }
    destruct e; simpl; try exact Hstop.
    unfold evaluateCompletionOrUndefined. destruct alternate as [alt|].
    + rewrite direct_run. simpl.
      eexists. split; [by rewrite <- !app_assoc|].
      by apply (ForkConsequentInfeasible condValue consequent (Some alt) alt);
        [|apply entry_event].
    + unfold bind, ret. rewrite completeStatement_run. exact Hstop.
Qed.

End Protocol.

Lemma runTrace_evaluate
    (C : Collaborators) (ast : BabelNodeIfStatement) (strictCode : bool)
    (r : Realm) :
  RunTrace ast (trace (runEvaluate C ast strictCode r).2).
Proof.
  unfold runEvaluate, evaluate.
  unfold bind at 1. rewrite call_run. simpl.
  destruct (env_evaluate C (test ast) strictCode r) as [[exprRef|e] r1];
    simpl; [|apply RunTestThrew].
  unfold bind at 1. rewrite call_run. simpl.
  destruct (GetConditionValue C exprRef r1) as [[exprValue|e] r2];
    simpl; [|apply RunConditionThrew].
  unfold isAbstractValue.
  destruct (isConcreteValue exprValue) eqn:Hconcrete; simpl.
  - destruct (ToBoolean exprValue).
    + rewrite direct_run. simpl.
      apply (RunConcrete ast (consequent ast)); [by left|apply entry_event].
    + unfold evaluateCompletionOrUndefined.
      destruct (alternate ast) as [alt|] eqn:Halt.
      * rewrite direct_run. simpl.
        apply (RunConcrete ast alt); [by right|apply entry_event].
      * unfold bind, ret. rewrite completeStatement_run. simpl.
        by apply RunConcreteNoAlternate.
  - unfold bind at 1. unfold ret at 1.
    unfold bind at 1. rewrite call_run. simpl.
    destruct (mightNotBeTrue C exprValue r2) as [[[]|e] r3]; simpl;
      [| |apply RunFirstQueryThrew].
    + unfold bind at 1. rewrite call_run. simpl.
      destruct (mightNotBeFalse C exprValue r3) as [[[]|e] r4]; simpl;
        [| |apply RunSecondQueryThrew].
      * unfold bind at 1. unfold ret at 1.
        match goal with
        | |- context [evaluateWithAbstractConditional C ?c ?a ?b ?d ?s'] =>
            destruct (forkTrace_evaluateWithAbstractConditional C c a b d s')
              as (t & Ht & Hf)
        end.
        simpl in Ht. rewrite Ht. by apply (RunFork ast exprValue).
      * unfold evaluateOrUndefined.
        destruct (alternate ast) as [alt|] eqn:Halt.
        -- rewrite direct_run. simpl.
           apply (RunProvablyFalse ast alt); [done|apply entry_event].
        -- unfold bind, ret. rewrite completeStatement_run. simpl.
           by apply RunProvablyFalseNoAlternate.
    + rewrite direct_run. simpl.
      apply RunProvablyTrue. apply entry_event.
Qed.

(** X3.  The calls of every run of [evaluate] follow one protocol: the
    test, then the condition value; for a concrete value at most one
    [env.evaluateCompletion], of the consequent or of the alternate;
    otherwise [mightNotBeTrue], then one [env.evaluate] of the
    consequent, or [mightNotBeFalse], then one [env.evaluate] of the
    alternate, or the fork.  The fork sandboxes the consequent between a
    push of the condition as true and its pop, then the alternate between
    a push of the condition as false and its pop, then joins, composes
    and commits; an infeasible sandboxed run is followed by one direct
    evaluation of the other branch.  A call that throws anything else is
    the last call, up to the pop of its assumption. *)
Theorem calls_follow_protocol
    (C : Collaborators) (ast : BabelNodeIfStatement) (strictCode : bool)
    (r : Realm) :
  RunTrace ast (trace (runEvaluate C ast strictCode r).2).
Proof. apply runTrace_evaluate. Qed.

(** ** What the protocol rules out *)

Lemma countDirectEvaluations_cons x t :
  countDirectEvaluations (x :: t)
  = (if isDirectEvaluation x then 1 else 0) + countDirectEvaluations t.
Proof.
  unfold countDirectEvaluations. rewrite filter_cons.
  case_decide as Hd; destruct (isDirectEvaluation x); simpl; congruence.
Qed.

Lemma countApplyEffects_cons x t :
  countApplyEffects (x :: t)
  = (if isApplyEffects x then 1 else 0) + countApplyEffects t.
Proof.
  unfold countApplyEffects. rewrite filter_cons.
  case_decide as Hd; destruct (isApplyEffects x); simpl; congruence.
Qed.

(** Every shape of the protocol, as an explicit list of entries. *)
Ltac protocol_cases H :=
  inversion H; subst; clear H;
  try match goal with
      | Hf : ForkTrace _ _ _ _ |- _ =>
          inversion Hf; subst; clear Hf;
          try match goal with
              | Hc : CommitTrace _ |- _ => inversion Hc; subst; clear Hc
              end
      end;
  simpl app in *.

Ltac count_entries :=
  rewrite ?countDirectEvaluations_cons, ?countApplyEffects_cons;
  unfold isDirectEvaluation, isApplyEffects;
  repeat match goal with
         | Hx : eventOf ?x = _ |- _ => rewrite Hx; clear Hx
         end;
  simpl.

(** X5.  Besides the evaluation of the test, a run makes at most one
    call that evaluates a branch on the real environment or commits to
    it: either one branch is evaluated directly by [env.evaluate] or
    [env.evaluateCompletion], or the joined effects are committed by
    [applyEffects]; never two branches, never a branch and a commit. *)
Theorem one_direct_branch_or_one_commit
    (C : Collaborators) (ast : BabelNodeIfStatement) (strictCode : bool)
    (r : Realm) :
  let t := trace (runEvaluate C ast strictCode r).2 in
  1 <= countDirectEvaluations t
  /\ countDirectEvaluations t + countApplyEffects t <= 2.
Proof.
  intros t. pose proof (runTrace_evaluate C ast strictCode r) as H.
  fold t in H. clearbody t.
  protocol_cases H; try destruct (alternate ast);
    count_entries; change (countDirectEvaluations []) with 0;
    change (countApplyEffects []) with 0; lia.
Qed.

Ltac elem_solve :=
  repeat first [ apply list_elem_of_here | apply list_elem_of_further ].

(** Finding an entry in an explicit list of entries. *)
Ltac locate H pre :=
  destruct pre as [|? pre]; simpl in H;
  [ first [ discriminate H | injection H as ? ?; subst ]
  | first [ discriminate H
          | injection H as ? H; subst; locate H pre ] ].

(** X6.  [mightNotBeFalse] is queried only after [mightNotBeTrue] has
    returned, and an assumption is pushed (the fork is entered) only
    after both queries have returned: in the record of calls of a run,
    the returned [mightNotBeTrue] stands before every [mightNotBeFalse]
    entry, and both returned queries stand before every push. *)
Theorem queries_precede_fork
    (C : Collaborators) (ast : BabelNodeIfStatement) (strictCode : bool)
    (r : Realm) (pre post : list Entry) (x : Entry)
    (Htrace : trace (runEvaluate C ast strictCode r).2 = pre ++ x :: post) :
  (eventOf x = EvMightNotBeFalse -> Returned EvMightNotBeTrue ∈ pre)
  /\ (forall c b, eventOf x = EvPush c b ->
                  Returned EvMightNotBeTrue ∈ pre
                  /\ Returned EvMightNotBeFalse ∈ pre).
Proof.
  pose proof (runTrace_evaluate C ast strictCode r) as H.
  rewrite Htrace in H. clear Htrace.
  split.
  - intros Hx.
    protocol_cases H;
      match goal with
      | Ht : _ = pre ++ x :: post |- _ => simpl in Ht; locate Ht pre
      end;
      simpl in Hx; try discriminate; try congruence; try elem_solve;
      destruct (alternate ast); discriminate.
  - intros c b Hx.
    protocol_cases H;
      match goal with
      | Ht : _ = pre ++ x :: post |- _ => simpl in Ht; locate Ht pre
      end;
      simpl in Hx; try discriminate; try congruence;
      try (split; elem_solve);
      destruct (alternate ast); discriminate.
Qed.

(** Scenario E: the push of the fork comes after both returned queries. *)
Lemma queries_precede_fork_witness :
  Returned EvMightNotBeTrue
    ∈ [Returned (EvEvaluate 0); Returned EvGetConditionValue;
       Returned EvMightNotBeTrue; Returned EvMightNotBeFalse]
  /\ Returned EvMightNotBeFalse
      ∈ [Returned (EvEvaluate 0); Returned EvGetConditionValue;
         Returned EvMightNotBeTrue; Returned EvMightNotBeFalse].
Proof.
  exact (proj2 (queries_precede_fork
                  (Scripted.collaborators Scripted.scenarioE)
                  Scripted.ifElse false Scripted.realm0
                  [Returned (EvEvaluate 0); Returned EvGetConditionValue;
                   Returned EvMightNotBeTrue; Returned EvMightNotBeFalse]
                  [Threw (EvEvaluateNodeForEffects 1); Returned EvPop;
                   Returned (EvEvaluateCompletion 2)]
                  (Returned (EvPush (Abs 7) true)) eq_refl)
               (Abs 7) true eq_refl).
Defined.

(** X4.  A sandboxed run is always made under its own assumption and
    under no other call: the entry before it is the push of the abstract
    condition, as true for the consequent and as false for the
    alternate, and the entry after it is the pop, whether the run
    returned or threw. *)
Theorem sandbox_runs_inside_its_assumption
    (C : Collaborators) (ast : BabelNodeIfStatement) (strictCode : bool)
    (r : Realm) (pre post : list Entry) (x : Entry) (n : BabelNode)
    (Htrace : trace (runEvaluate C ast strictCode r).2 = pre ++ x :: post)
    (Hx : eventOf x = EvEvaluateNodeForEffects n) :
  exists c b,
    last pre = Some (Returned (EvPush c b))
    /\ head post = Some (Returned EvPop)
    /\ isConcreteValue c = false
    /\ (if b then n = consequent ast else alternate ast = Some n).
Proof.
  pose proof (runTrace_evaluate C ast strictCode r) as H.
  rewrite Htrace in H. clear Htrace.
  protocol_cases H;
    match goal with
    | Ht : _ = pre ++ x :: post |- _ => simpl in Ht; locate Ht pre
    end;
    simpl in Hx;
    try discriminate; try congruence;
    try (destruct (alternate ast) eqn:Halt; simpl in Hx;
         [|discriminate]);
    injection Hx as <-;
    eexists _, _; simpl; (split; [reflexivity|]);
    (split; [reflexivity|]); (split; [eassumption|]); done.
Qed.

(** Scenario E: the consequent's sandboxed run, which threw, sits between
    the push of the condition as true and the pop. *)
Lemma sandbox_runs_inside_its_assumption_witness :
  exists c b,
    last [Returned (EvEvaluate 0); Returned EvGetConditionValue;
          Returned EvMightNotBeTrue; Returned EvMightNotBeFalse;
          Returned (EvPush (Abs 7) true)]
    = Some (Returned (EvPush c b))
    /\ head [Returned EvPop; Returned (EvEvaluateCompletion 2)]
       = Some (Returned EvPop)
    /\ isConcreteValue c = false
    /\ (if b then 1 = consequent Scripted.ifElse
        else alternate Scripted.ifElse = Some 1).
Proof.
  exact (sandbox_runs_inside_its_assumption
           (Scripted.collaborators Scripted.scenarioE) Scripted.ifElse false
           Scripted.realm0
           [Returned (EvEvaluate 0); Returned EvGetConditionValue;
            Returned EvMightNotBeTrue; Returned EvMightNotBeFalse;
            Returned (EvPush (Abs 7) true)]
           [Returned EvPop; Returned (EvEvaluateCompletion 2)]
           (Threw (EvEvaluateNodeForEffects 1)) 1 eq_refl eq_refl).
Defined.

(** ** Errors before and after the branches *)

(** X1.  An error thrown while the condition is evaluated (by
    [env.evaluate] on the test or by [GetConditionValue]) or by one of
    the two feasibility queries is the outcome of [evaluate]; the realm
    is left as the throwing call left it and no further call is made:
    no branch is evaluated, sandboxed or committed. *)
Theorem early_errors_propagate
    (C : Collaborators) (ast : BabelNodeIfStatement) (strictCode : bool)
    (r : Realm) :
  (forall e r1,
     env_evaluate C (test ast) strictCode r = (Raise e, r1) ->
     runEvaluate C ast strictCode r
     = (Raise e, mkSt r1 [Threw (EvEvaluate (test ast))]))
  /\ (forall exprRef r1 e r2,
       env_evaluate C (test ast) strictCode r = (Ret exprRef, r1) ->
       GetConditionValue C exprRef r1 = (Raise e, r2) ->
       runEvaluate C ast strictCode r
       = (Raise e, mkSt r2 [Returned (EvEvaluate (test ast));
                            Threw EvGetConditionValue]))
  /\ (forall exprRef r1 exprValue r2 e r3,
       env_evaluate C (test ast) strictCode r = (Ret exprRef, r1) ->
       GetConditionValue C exprRef r1 = (Ret exprValue, r2) ->
       isConcreteValue exprValue = false ->
       mightNotBeTrue C exprValue r2 = (Raise e, r3) ->
       runEvaluate C ast strictCode r
       = (Raise e, mkSt r3 [Returned (EvEvaluate (test ast));
                            Returned EvGetConditionValue;
                            Threw EvMightNotBeTrue]))
  /\ (forall exprRef r1 exprValue r2 r3 e r4,
       env_evaluate C (test ast) strictCode r = (Ret exprRef, r1) ->
       GetConditionValue C exprRef r1 = (Ret exprValue, r2) ->
       isConcreteValue exprValue = false ->
       mightNotBeTrue C exprValue r2 = (Ret true, r3) ->
       mightNotBeFalse C exprValue r3 = (Raise e, r4) ->
       runEvaluate C ast strictCode r
       = (Raise e, mkSt r4 [Returned (EvEvaluate (test ast));
                            Returned EvGetConditionValue;
                            Returned EvMightNotBeTrue;
                            Threw EvMightNotBeFalse])).
Proof.
  unfold runEvaluate, evaluate. split; [|split; [|split]].
  - intros e r1 Htest.
    unfold bind at 1. rewrite call_run. simpl. by rewrite Htest.
  - intros exprRef r1 e r2 Htest Hcond.
    unfold bind at 1. rewrite call_run. simpl. rewrite Htest. simpl.
    unfold bind at 1. rewrite call_run. simpl. by rewrite Hcond.
  - intros exprRef r1 exprValue r2 e r3 Htest Hcond Habs Htrue.
    unfold bind at 1. rewrite call_run. simpl. rewrite Htest. simpl.
    unfold bind at 1. rewrite call_run. simpl. rewrite Hcond. simpl.
    unfold isAbstractValue. rewrite Habs. simpl.
    unfold bind at 1. unfold ret at 1.
    unfold bind at 1. rewrite call_run. simpl. by rewrite Htrue.
  - intros exprRef r1 exprValue r2 r3 e r4 Htest Hcond Habs Htrue Hfalse.
    unfold bind at 1. rewrite call_run. simpl. rewrite Htest. simpl.
    unfold bind at 1. rewrite call_run. simpl. rewrite Hcond. simpl.
    unfold isAbstractValue. rewrite Habs. simpl.
    unfold bind at 1. unfold ret at 1.
    unfold bind at 1. rewrite call_run. simpl. rewrite Htrue. simpl.
    unfold bind at 1. rewrite call_run. simpl. by rewrite Hfalse.
Qed.

(** A failing query: its error is the outcome after three calls. *)
Lemma early_errors_propagate_witness :
  runEvaluate (Scripted.collaborators Scripted.infeasibleQuery)
              Scripted.ifElse false Scripted.realm0
  = (Raise InfeasiblePathError,
     mkSt Scripted.realm0 [Returned (EvEvaluate 0);
                           Returned EvGetConditionValue;
                           Threw EvMightNotBeTrue]).
Proof.
  destruct (early_errors_propagate
              (Scripted.collaborators Scripted.infeasibleQuery)
              Scripted.ifElse false Scripted.realm0) as (_ & _ & Hquery & _).
  exact (Hquery (IsValue (Abs 7)) Scripted.realm0 (Abs 7) Scripted.realm0
                InfeasiblePathError Scripted.realm0
                eq_refl eq_refl eq_refl eq_refl).
Defined.

(** X2.  In the commit block an error thrown by the join or by the
    composition is the outcome of the fork and [applyEffects] is not
    called; an error thrown by [applyEffects] is the outcome even when
    the joined completion is abrupt, which is then not thrown. *)
Theorem commit_block_errors_propagate
    (C : Collaborators) (condValue : Value) (consequent : BabelNode)
    (alternate : option BabelNode) (strictCode : bool) (s : St)
    (e1 e2 : Effects) (r1 r2 : Realm)
    (Hsandbox1 :
       evaluateNodeForEffects C consequent strictCode
         (pushPathCondition condValue true (realm s)) = (Ret e1, r1))
    (Hsandbox2 :
       alternateSandbox C alternate strictCode
         (pushPathCondition condValue false (popPathCondition r1))
         = (Ret e2, r2)) :
  let t0 := trace s ++ [Returned (EvPush condValue true);
                        Returned (EvEvaluateNodeForEffects consequent);
                        Returned EvPop;
                        Returned (EvPush condValue false);
                        Returned (alternateSandboxEvent alternate);
                        Returned EvPop] in
  let result := evaluateWithAbstractConditional C condValue consequent
                                                alternate strictCode s in
  (forall e r3,
     joinEffects C condValue e1 e2 (popPathCondition r2) = (Raise e, r3) ->
     result = (Raise e, mkSt r3 (t0 ++ [Threw (EvJoinEffects e1 e2)])))
  /\ (forall joined r3 p e r4,
       joinEffects C condValue e1 e2 (popPathCondition r2)
         = (Ret joined, r3) ->
       completion joined = IsPossiblyNormal p ->
       composeWithSavedCompletion C p r3 = (Raise e, r4) ->
       result = (Raise e,
                 mkSt r4 (t0 ++ [Returned (EvJoinEffects e1 e2);
                                 Threw (EvComposeWithSavedCompletion p)])))
  /\ (forall joined r3 a e r4,
       joinEffects C condValue e1 e2 (popPathCondition r2)
         = (Ret joined, r3) ->
       completion joined = IsAbrupt a ->
       applyEffects C joined r3 = (Raise e, r4) ->
       result = (Raise e,
                 mkSt r4 (t0 ++ [Returned (EvJoinEffects e1 e2);
                                 Threw (EvApplyEffects joined)]))).
Proof.
  intros t0 result.
  assert (Hrun : result = joinAndCommit C condValue e1 e2
                            (mkSt (popPathCondition r2) t0)).
  { unfold result, evaluateWithAbstractConditional.
    unfold tryInfeasible at 1. unfold withCondition.
    rewrite withAssumption_call_run, Hsandbox1. simpl.
    unfold tryInfeasible, withInverseCondition.
    rewrite sandboxAlternate_call, withAssumption_call_run. simpl.
    rewrite Hsandbox2. simpl. unfold t0. by rewrite <- !app_assoc. }
  rewrite joinAndCommit_run in Hrun. simpl in Hrun.
  split; [|split].
  - intros e r3 Hjoin. rewrite Hrun, Hjoin. done.
  - intros joined r3 p e r4 Hjoin Hp Hcompose.
    rewrite Hrun, Hjoin. simpl. rewrite Hp. simpl. rewrite Hcompose. simpl.
    by rewrite <- app_assoc.
  - intros joined r3 a e r4 Hjoin Ha Happly.
    rewrite Hrun, Hjoin. simpl. rewrite Ha. simpl. rewrite Happly. simpl.
    by rewrite <- app_assoc.
Qed.

(** A [return] on one side and a [throw] on the other: the scripted join
    fails, its error is the outcome and nothing is committed. *)
Lemma commit_block_errors_propagate_witness :
  let sc := Scripted.script (Abs 7)
              (Ret (IsValue (Num 1))) (Ret (IsValue (Num 2)))
              (Ret (Scripted.effectsOf
                      (IsAbrupt (mkAbrupt Return (Num 1) None)) 5 (Num 1)))
              (Ret (Scripted.effectsOf
                      (IsAbrupt (mkAbrupt Throw (Num 2) None)) 5 (Num 2)))
              (Ret true) (Ret true) in
  let out := evaluateWithAbstractConditional (Scripted.collaborators sc)
               (Abs 7) 1 (Some 2) false (mkSt Scripted.realm0 []) in
  out.1 = Raise (FatalError 2) /\ countApplyEffects (trace out.2) = 0.
Proof.
  intros sc out.
  destruct (commit_block_errors_propagate
              (Scripted.collaborators sc) (Abs 7) 1 (Some 2) false
              (mkSt Scripted.realm0 []) _ _ _ _ eq_refl eq_refl)
    as (Hjoin & _).
  unfold out. rewrite (Hjoin (FatalError 2) _ eq_refl).
  split; reflexivity.
Defined.

(** ** What the evaluator itself does to the realm *)

Section Respect.

Context (R : Realm -> Realm -> Prop).
Context (Hrefl : forall r, R r r).
Context (Htrans : forall r1 r2 r3, R r1 r2 -> R r2 r3 -> R r1 r3).
Context (Hscoped : forall c truth r r',
            R (pushPathCondition c truth r) r' -> R r (popPathCondition r')).
Context (C : Collaborators) (HC : Respectful R C).

Lemma respects_ret {A} (a : A) : respectsM R (ret a).
Proof. intros s. apply Hrefl. Qed.

Lemma respects_invariant b site : respectsM R (invariant b site).
Proof. intros s. destruct b; apply Hrefl. Qed.

Lemma respects_call {A} ev (f : Realm -> Res A * Realm) :
  respects R f -> respectsM R (call ev f).
Proof. intros Hf s. rewrite call_run. simpl. apply Hf. Qed.

Lemma respects_bind {A B} (m : M A) (k : A -> M B) :
  respectsM R m -> (forall a, respectsM R (k a)) -> respectsM R (bind m k).
Proof.
  intros Hm Hk s. unfold bind. specialize (Hm s).
  destruct (m s) as [[a|e] s1]; simpl in *; [|done].
  eapply Htrans; [exact Hm|apply Hk].
Qed.

Lemma respects_tryInfeasible {A B} (m : M A) (fallback : M B)
    (k : A -> M B) :
  respectsM R m -> respectsM R fallback -> (forall a, respectsM R (k a)) ->
  respectsM R (tryInfeasible m fallback k).
Proof.
  intros Hm Hf Hk s. unfold tryInfeasible. specialize (Hm s).
  destruct (m s) as [[a|[]] s1]; simpl in *; try done.
  - eapply Htrans; [exact Hm|apply Hk].
  - eapply Htrans; [exact Hm|apply Hf].
Qed.

Lemma respects_withAssumption {A} c truth ev (f : Realm -> Res A * Realm) :
  respects R f -> respectsM R (withAssumption c truth (call ev f)).
Proof.
  intros Hf s. rewrite withAssumption_call_run. simpl.
  apply Hscoped with (c := c) (truth := truth). apply Hf.
Qed.

Lemma respects_completeStatement x : respectsM R (completeStatement x).
Proof. intros s. rewrite completeStatement_run. apply Hrefl. Qed.

Lemma respects_direct ev (f : Realm -> Res Completion * Realm) :
  respects R f ->
  respectsM R (let* stmtCompletion := call ev f in
               completeStatement stmtCompletion).
Proof.
  intros Hf. apply respects_bind; [by apply respects_call|].
  apply respects_completeStatement.
Qed.

Lemma respects_undefined :
  respectsM R (let* stmtCompletion := ret (IsValue Undefined) in
               completeStatement stmtCompletion).
Proof.
  apply respects_bind; [apply respects_ret|apply respects_completeStatement].
Qed.

Lemma respects_joinAndCommit condValue e1 e2 :
  respectsM R (joinAndCommit C condValue e1 e2).
Proof.
  unfold joinAndCommit.
  apply respects_bind; [apply respects_call, HC|]. intros joinedEffects.
  apply respects_bind.
  - destruct (completion joinedEffects); try apply respects_ret.
    apply respects_call, HC.
  - intros fin. apply respects_bind; [apply respects_call, HC|].
    intros _ s. rewrite throwOrReturn_run. apply Hrefl.
Qed.

Lemma respects_evaluateWithAbstractConditional
    condValue consequent alternate strictCode :
  respectsM R (evaluateWithAbstractConditional C condValue consequent
                                               alternate strictCode).
Proof.
  unfold evaluateWithAbstractConditional.
  apply respects_tryInfeasible.
  - apply respects_withAssumption, HC.
  - destruct alternate; [apply respects_direct, HC|apply respects_undefined].
  - intros e1. apply respects_tryInfeasible.
    + rewrite sandboxAlternate_call. apply respects_withAssumption.
      destruct alternate; simpl; [apply HC|]. intros r. apply Hrefl.
    + apply respects_direct, HC.
    + intros e2. apply respects_joinAndCommit.
Qed.

Lemma respects_evaluate ast strictCode :
  respectsM R (evaluate C ast strictCode).
Proof.
  unfold evaluate.
  apply respects_bind; [apply respects_call, HC|]. intros exprRef.
  apply respects_bind; [apply respects_call, HC|]. intros exprValue.
  destruct (isConcreteValue exprValue).
  - destruct (ToBoolean exprValue); [apply respects_direct, HC|].
    destruct (alternate ast);
      [apply respects_direct, HC|apply respects_undefined].
  - apply respects_bind; [apply respects_invariant|]. intros _.
    apply respects_bind; [apply respects_call, HC|]. intros mnbt.
    destruct (negb mnbt); [apply respects_direct, HC|].
    apply respects_bind; [apply respects_call, HC|]. intros mnbf.
    destruct (negb mnbf).
    + destruct (alternate ast);
        [apply respects_direct, HC|apply respects_undefined].
    + apply respects_bind; [apply respects_invariant|]. intros _.
      apply respects_evaluateWithAbstractConditional.
Qed.

End Respect.

Lemma samePath_scoped c truth r r' :
  samePath (pushPathCondition c truth r) r' -> samePath r (popPathCondition r').
Proof. unfold samePath. simpl. by intros ->. Qed.

Lemma keeps_scoped (I : Realm -> Prop) :
  (forall p r, I (setPath p r) <-> I r) ->
  forall c truth r r',
    keeps I (pushPathCondition c truth r) r' -> keeps I r (popPathCondition r').
Proof.
  intros HI c truth r r' Hk Hr. unfold popPathCondition, pushPathCondition in *.
  apply HI, Hk, HI, Hr.
Qed.

(** X7.  When every collaborator call leaves the path-condition stack as
    it found it, the stack after a run of [evaluate] is the very stack
    it started with (the same entries, not only as many), on every
    exit. *)
Theorem path_conditions_restored
    (C : Collaborators) (HC : Respectful samePath C)
    (ast : BabelNodeIfStatement) (strictCode : bool) (r : Realm) :
  pathConditions (realm (runEvaluate C ast strictCode r).2)
  = pathConditions r.
Proof.
  assert (Hrun : respectsM samePath (evaluate C ast strictCode)).
  { apply respects_evaluate; [| | |exact HC].
    - done.
    - unfold samePath. congruence.
    - apply samePath_scoped. }
  exact (Hrun (mkSt r [])).
Qed.

(** X8.  The evaluator changes the realm only through its collaborators
    and through the scoped assumptions: a property of the realm that
    does not depend on the path-condition stack and that every
    collaborator call keeps also holds after a run of [evaluate] when it
    held before, on every exit. *)
Theorem realm_invariant_kept
    (C : Collaborators) (I : Realm -> Prop)
    (Hpath : forall p r, I (setPath p r) <-> I r)
    (HC : Respectful (keeps I) C)
    (ast : BabelNodeIfStatement) (strictCode : bool) (r : Realm)
    (Hr : I r) :
  I (realm (runEvaluate C ast strictCode r).2).
Proof.
  assert (Hrun : respectsM (keeps I) (evaluate C ast strictCode)).
  { apply respects_evaluate; [| | |exact HC].
    - unfold keeps. auto.
    - unfold keeps. auto.
    - apply (keeps_scoped I Hpath). }
  exact (Hrun (mkSt r []) Hr).
Qed.

Lemma scripted_samePath sc : Respectful samePath (Scripted.collaborators sc).
Proof. by split; intros; intros r. Qed.

Lemma scripted_keeps_object sc (o : nat) :
  Respectful (keeps (fun r => o ∈ realObjects r)) (Scripted.collaborators sc).
Proof.
  split; intros; intros r Hr; simpl; try done.
  apply elem_of_union. by left.
Qed.

(** Scenario B, started under an assumption made by an enclosing fork:
    that assumption is the whole stack again after the run. *)
Lemma path_conditions_restored_witness :
  pathConditions (realm (runEvaluate
     (Scripted.collaborators Scripted.scenarioB) Scripted.ifElse false
     (pushPathCondition (Abs 3) true Scripted.realm0)).2)
  = [(Abs 3, true)].
Proof.
  exact (path_conditions_restored
           (Scripted.collaborators Scripted.scenarioB)
           (scripted_samePath Scripted.scenarioB) Scripted.ifElse false
           (pushPathCondition (Abs 3) true Scripted.realm0)).
Defined.

(** Scenario B: an object of the realm is still there after the commit. *)
Lemma realm_invariant_kept_witness :
  1 ∈ realObjects (realm (runEvaluate
        (Scripted.collaborators Scripted.scenarioB) Scripted.ifElse false
        (mkRealm [] ∅ ∅ Done {[ 1 ]} None)).2).
Proof.
  apply (realm_invariant_kept
           (Scripted.collaborators Scripted.scenarioB)
           (fun r => 1 ∈ realObjects r)).
  - intros p r. reflexivity.
  - apply scripted_keeps_object.
  - simpl. by apply elem_of_singleton.
Defined.

(** ** From [evaluate] to the fork *)

(** X9.  [evaluate] hands over to [evaluateWithAbstractConditional]
    exactly when the condition value is abstract and both queries
    answered true: the run is then the run of the fork on that abstract
    value, the consequent and the alternate of the statement, started on
    the realm left by [mightNotBeFalse] after the four calls made so
    far. *)
Theorem undecided_condition_forks
    (C : Collaborators) (ast : BabelNodeIfStatement) (strictCode : bool)
    (r r1 r2 r3 r4 : Realm) (exprRef : Completion) (exprValue : Value)
    (Htest : env_evaluate C (test ast) strictCode r = (Ret exprRef, r1))
    (Hcond : GetConditionValue C exprRef r1 = (Ret exprValue, r2))
    (Habstract : isConcreteValue exprValue = false)
    (Htrue : mightNotBeTrue C exprValue r2 = (Ret true, r3))
    (Hfalse : mightNotBeFalse C exprValue r3 = (Ret true, r4)) :
  runEvaluate C ast strictCode r
  = evaluateWithAbstractConditional C exprValue (consequent ast)
      (alternate ast) strictCode
      (mkSt r4 [Returned (EvEvaluate (test ast));
                Returned EvGetConditionValue;
                Returned EvMightNotBeTrue; Returned EvMightNotBeFalse]).
Proof.
  unfold runEvaluate, evaluate.
  unfold bind at 1. rewrite call_run. simpl. rewrite Htest. simpl.
  unfold bind at 1. rewrite call_run. simpl. rewrite Hcond. simpl.
  unfold isAbstractValue. rewrite Habstract. simpl.
  unfold bind at 1. unfold ret at 1.
  unfold bind at 1. rewrite call_run. simpl. rewrite Htrue. simpl.
  unfold bind at 1. rewrite call_run. simpl. rewrite Hfalse. simpl.
  unfold bind at 1. by unfold ret at 1.
Qed.

(** Scenario B: the run of [evaluate] is the run of the fork. *)
Lemma undecided_condition_forks_witness :
  (runEvaluate (Scripted.collaborators Scripted.scenarioB)
               Scripted.ifElse false Scripted.realm0).1
  = (evaluateWithAbstractConditional
       (Scripted.collaborators Scripted.scenarioB) (Abs 7) 1 (Some 2) false
       (mkSt Scripted.realm0
             [Returned (EvEvaluate 0); Returned EvGetConditionValue;
              Returned EvMightNotBeTrue; Returned EvMightNotBeFalse])).1.
Proof.
  rewrite (undecided_condition_forks
             (Scripted.collaborators Scripted.scenarioB) Scripted.ifElse
             false Scripted.realm0 Scripted.realm0 Scripted.realm0
             Scripted.realm0 Scripted.realm0 (IsValue (Abs 7)) (Abs 7)
             eq_refl eq_refl eq_refl eq_refl eq_refl).
  reflexivity.
Defined.
